(** * campus-mobile: shuttle-stop polling, time formatting and helpers

    A shallow embedding of
    - [util/general]  (militaryToAMPM, getDirectionsURL, the reload
      animation helpers, dynamicSort, sortNearbyMarkers),
    - [DiningService.FetchDining],
    - the [ShuttleStop] view: its timer life cycle and what it renders,
    together with the properties of these functions.

    Conventions of the embedding.
    - A JavaScript string is a [string]: a sequence of code units, here
      restricted to the code units below 256.
    - A JavaScript number is a [number]: NaN, the two infinities, or an
      exact rational ([Qc]); rounding of doubles is not represented.
    - A plain JavaScript object is a finite map from property names to
      values ([gmap string value]); an array is a [list value].
    - A function that can throw returns a [completion]; a promise is
      represented by the way it settles ([settled]).
    - Functions that read the clock take the time, in milliseconds, as an
      argument; the passing of time is a function on the state of the
      view and its timers.

    The definitions come first (modules [JS], [General], [DiningService],
    [ShuttleStop], [ShuttleStopView]); the properties follow, one module
    per component. *)

From Stdlib Require Import QArith Qcanon Qround Qabs ZArith NArith Ascii String List.
From Stdlib Require Import Sorting.Sorted Sorting.Permutation Lia Lqa.
From stdpp Require Import gmap strings list pretty.

(** ** The fragment of JavaScript the sources rely on *)

Module JS.

Inductive number :=
| NaN
| NegInfinity
| Finite (q : Qc)
| PosInfinity.

#[global] Instance number_eq_dec : EqDecision number.
Proof. solve_decision. Defined.

#[warnings="-register-all"] Inductive value :=
| VUndefined
| VNull
| VBool (b : bool)
| VNumber (n : number)
| VString (s : string)
| VArray (items : list value)
| VObject (fields : gmap string value).

(** What a [throw] carries: a built-in error (its message, which differs
    between engines, is left out) or any value. *)
Inductive exception :=
| TypeError
| SyntaxError
| Thrown (v : value).

(** Result of evaluating a function body: it returns or it throws. *)
Inductive completion (A : Type) :=
| Return (a : A)
| Throw (e : exception).
Arguments Return {A} a.
Arguments Throw {A} e.

Definition int (z : Z) : number := Finite (Qc_of_Z z).

(** *** Numbers *)

(** [a < b] on numbers; false as soon as one side is NaN. *)
Definition number_lt (a b : number) : bool :=
  match a, b with
  | NaN, _ | _, NaN => false
  | NegInfinity, NegInfinity => false
  | NegInfinity, _ => true
  | _, NegInfinity => false
  | PosInfinity, _ => false
  | Finite _, PosInfinity => true
  | Finite p, Finite q =>
      match Qccompare p q with Lt => true | _ => false end
  end.

(** [a <= b] on numbers. *)
Definition number_le (a b : number) : bool :=
  match a, b with
  | NaN, _ | _, NaN => false
  | _, _ => negb (number_lt b a)
  end.

Definition number_opp (a : number) : number :=
  match a with
  | NaN => NaN
  | NegInfinity => PosInfinity
  | PosInfinity => NegInfinity
  | Finite q => Finite (- q)%Qc
  end.

Definition number_add (a b : number) : number :=
  match a, b with
  | NaN, _ | _, NaN => NaN
  | NegInfinity, PosInfinity | PosInfinity, NegInfinity => NaN
  | NegInfinity, _ | _, NegInfinity => NegInfinity
  | PosInfinity, _ | _, PosInfinity => PosInfinity
  | Finite p, Finite q => Finite (p + q)%Qc
  end.

Definition number_sub (a b : number) : number :=
  number_add a (number_opp b).

(** Digits of the fractional part [r / d] (with [r < d]), until the
    remainder vanishes or the fuel is spent. *)
Fixpoint fraction_digits (fuel : nat) (r d : Z) : string :=
  match fuel with
  | O => ""
  | S fuel' =>
      if (r =? 0)%Z then ""
      else pretty (10 * r / d)%Z +:+ fraction_digits fuel' ((10 * r) mod d)%Z d
  end.

(** Number::toString.  Exact on the integers (below 10^21), which are the
    only numbers these sources ever turn into text; a non-integral
    rational is printed by its decimal expansion. *)
Definition number_to_string (n : number) : string :=
  match n with
  | NaN => "NaN"
  | PosInfinity => "Infinity"
  | NegInfinity => "-Infinity"
  | Finite q =>
      let num := Qnum (this q) in
      let den := Z.pos (Qden (this q)) in
      if (den =? 1)%Z then pretty num
      else
        (if (num <? 0)%Z then "-" else "")
        +:+ pretty (Z.abs num / den)%Z +:+ "."
        +:+ fraction_digits 20 (Z.abs num mod den)%Z den
  end.

(** *** Strings to numbers (StringToNumber) *)

Definition isWhiteSpace (c : ascii) : bool :=
  let n := N_of_ascii c in
  ((9 <=? n) && (n <=? 13) || (n =? 32) || (n =? 160))%N.

Fixpoint dropWhile {A} (p : A -> bool) (l : list A) : list A :=
  match l with
  | [] => []
  | x :: r => if p x then dropWhile p r else l
  end.

Definition trim (l : list ascii) : list ascii :=
  rev (dropWhile isWhiteSpace (rev (dropWhile isWhiteSpace l))).

(** Value of a digit in the given base (2, 8, 10 or 16). *)
Definition digit (base : N) (c : ascii) : option N :=
  let n := N_of_ascii c in
  let d :=
    if ((48 <=? n) && (n <=? 57))%N then Some (n - 48)%N
    else if ((97 <=? n) && (n <=? 102))%N then Some (n - 87)%N
    else if ((65 <=? n) && (n <=? 70))%N then Some (n - 55)%N
    else None in
  match d with
  | Some k => if (k <? base)%N then Some k else None
  | None => None
  end.

(** Longest prefix of decimal digits, as their values, and the rest. *)
Fixpoint span_digits (l : list ascii) : list N * list ascii :=
  match l with
  | [] => ([], [])
  | c :: r =>
      match digit 10 c with
      | Some d => let '(ds, rest) := span_digits r in (d :: ds, rest)
      | None => ([], l)
      end
  end.

Definition digits_value (base : N) (ds : list N) : N :=
  fold_left (fun acc d => (acc * base + d)%N) ds 0%N.

(** A non-empty run of digits of [base] and nothing else. *)
Fixpoint all_digits (base : N) (l : list ascii) : option (list N) :=
  match l with
  | [] => Some []
  | c :: r =>
      match digit base c, all_digits base r with
      | Some d, Some ds => Some (d :: ds)
      | _, _ => None
      end
  end.

Definition radix_literal (base : N) (l : list ascii) : number :=
  match l, all_digits base l with
  | _ :: _, Some ds => int (Z.of_N (digits_value base ds))
  | _, _ => NaN
  end.

(** [ip.fp] times ten to the [ex]. *)
Definition decimal (ip fp : list N) (ex : Z) : number :=
  Finite (Q2Qc (inject_Z (Z.of_N (digits_value 10 (ip ++ fp)))
                * Qpower (10 # 1) (ex - Z.of_nat (length fp)))).

(** ExponentPart, or nothing, up to the end of the input. *)
Definition exponent (l : list ascii) : option Z :=
  match l with
  | [] => Some 0%Z
  | c :: r =>
      if (Ascii.eqb c "e" || Ascii.eqb c "E")%bool then
        let '(neg, r') :=
          match r with
          | s :: r' =>
              if Ascii.eqb s "-" then (true, r')
              else if Ascii.eqb s "+" then (false, r')
              else (false, r)
          | [] => (false, r)
          end in
        match span_digits r' with
        | ((_ :: _) as ds, []) =>
            let e := Z.of_N (digits_value 10 ds) in
            Some (if neg then (- e)%Z else e)
        | _ => None
        end
      else None
  end.

(** StrUnsignedDecimalLiteral. *)
Definition unsigned_decimal (l : list ascii) : number :=
  if bool_decide (l = list_ascii_of_string "Infinity") then PosInfinity
  else
    let '(ip, r1) := span_digits l in
    match r1 with
    | c :: r2 =>
        if Ascii.eqb c "." then
          let '(fp, r3) := span_digits r2 in
          match ip, fp with
          | [], [] => NaN
          | _, _ =>
              match exponent r3 with
              | Some ex => decimal ip fp ex
              | None => NaN
              end
          end
        else
          match ip, exponent r1 with
          | _ :: _, Some ex => decimal ip [] ex
          | _, _ => NaN
          end
    | [] =>
        match ip with
        | [] => NaN
        | _ => decimal ip [] 0
        end
    end.

Definition StringToNumber (s : string) : number :=
  match trim (list_ascii_of_string s) with
  | [] => int 0
  | c :: r =>
      if Ascii.eqb c "-" then number_opp (unsigned_decimal r)
      else if Ascii.eqb c "+" then unsigned_decimal r
      else
        match r with
        | p :: r' =>
            if Ascii.eqb c "0" then
              if (Ascii.eqb p "x" || Ascii.eqb p "X")%bool then radix_literal 16 r'
              else if (Ascii.eqb p "o" || Ascii.eqb p "O")%bool then radix_literal 8 r'
              else if (Ascii.eqb p "b" || Ascii.eqb p "B")%bool then radix_literal 2 r'
              else unsigned_decimal (c :: r)
            else unsigned_decimal (c :: r)
        | [] => unsigned_decimal (c :: r)
        end
  end.

(** *** Conversions between values *)

(** ToString; an object without a [toString] of its own prints as
    [[object Object]], an array joins its elements with commas. *)
Fixpoint ToString (v : value) : string :=
  match v with
  | VUndefined => "undefined"
  | VNull => "null"
  | VBool true => "true"
  | VBool false => "false"
  | VNumber n => number_to_string n
  | VString s => s
  | VObject _ => "[object Object]"
  | VArray items =>
      (fix join (l : list value) : string :=
         let element x :=
           match x with
           | VUndefined | VNull => ""
           | _ => ToString x
           end in
         match l with
         | [] => ""
         | [x] => element x
         | x :: r => element x +:+ "," +:+ join r
         end) items
  end.

(** ToPrimitive with hint number: objects and arrays become strings. *)
Definition ToPrimitive (v : value) : value :=
  match v with
  | VArray _ | VObject _ => VString (ToString v)
  | _ => v
  end.

Definition ToNumber (v : value) : number :=
  match ToPrimitive v with
  | VUndefined => NaN
  | VNull => int 0
  | VBool b => if b then int 1 else int 0
  | VNumber n => n
  | VString s => StringToNumber s
  | VArray _ | VObject _ => NaN
  end.

(** ToBoolean, the test of [if (v)]. *)
Definition truthy (v : value) : bool :=
  match v with
  | VUndefined | VNull => false
  | VBool b => b
  | VNumber NaN => false
  | VNumber (Finite q) => negb (bool_decide (q = 0%Qc))
  | VNumber _ => true
  | VString s => negb (String.eqb s "")
  | VArray _ | VObject _ => true
  end.

(** *** Operators *)

(** [x < y]: two strings compare by code units, anything else as numbers. *)
Definition lt (x y : value) : bool :=
  match ToPrimitive x, ToPrimitive y with
  | VString a, VString b => String.ltb a b
  | px, py => number_lt (ToNumber px) (ToNumber py)
  end.

(** [x > y] is [y < x]. *)
Definition gt (x y : value) : bool := lt y x.

(** [v === 'literal']. *)
Definition strict_eq_string (v : value) (literal : string) : bool :=
  match v with
  | VString s => String.eqb s literal
  | _ => false
  end.



(** [o.name] and [o[name]] on a plain object, for the properties of the
    object's own: a missing property reads as undefined.  This is the
    read of the code for every name but the [inherited] ones, which an
    object without such a property of its own takes from its prototype. *)
Definition field (o : gmap string value) (name : string) : value :=
  default VUndefined (o !! name).

(** [v.name] on any value, for a property name that is not one of the
    built-in ones: reading from undefined or null throws. *)
Definition get (o : value) (name : string) : completion value :=
  match o with
  | VUndefined | VNull => Throw TypeError
  | VObject fields => Return (field fields name)
  | _ => Return VUndefined
  end.

(** [v.length]. *)
Definition get_length (v : value) : completion value :=
  match v with
  | VString s => Return (VNumber (int (Z.of_nat (String.length s))))
  | VArray items => Return (VNumber (int (Z.of_nat (length items))))
  | _ => get v "length"
  end.

(** *** String methods *)

(** [s.substring(from, to)] for [from <= to]. *)
Definition substring (s : string) (from to : nat) : string :=
  String.substring from (to - from) s.

(** [s.replace(c, '')] for a one-character pattern: the first
    occurrence only. *)
Fixpoint remove_first (c : ascii) (s : string) : string :=
  match s with
  | EmptyString => EmptyString
  | String a r => if Ascii.eqb a c then r else String a (remove_first c r)
  end.

(** [s.startsWith(p)]. *)
Definition startsWith (p s : string) : bool := String.prefix p s.

(** [s.endsWith(p)]. *)
Fixpoint endsWith (p s : string) : bool :=
  String.eqb p s
  || match s with
     | EmptyString => false
     | String _ r => endsWith p r
     end.

(** [s.replace(/^0/, '')]. *)
Definition remove_leading_zero (s : string) : string :=
  match s with
  | String a r => if Ascii.eqb a "0" then r else s
  | EmptyString => s
  end.

(** *** Array.prototype.sort

    The sort is stable: [x] is moved in front of [y] only when the
    comparator says so.  Elements are inserted from the right, each one
    in front of the first element it does not exceed. *)
Section Sort.
Context {A : Type} (compareFn : A -> A -> Z).

Fixpoint insert (x : A) (l : list A) : list A :=
  match l with
  | [] => [x]
  | y :: r => if (compareFn x y <=? 0)%Z then x :: l else y :: insert x r
  end.

Fixpoint sort (l : list A) : list A :=
  match l with
  | [] => []
  | x :: r => insert x (sort r)
  end.
End Sort.

(** *** Promises, by the way they settle *)

Inductive settled (A : Type) :=
| Fulfilled (a : A)
| Rejected (reason : exception).
Arguments Fulfilled {A} a.
Arguments Rejected {A} reason.

(** [p.then(f)]: a handler that throws rejects the resulting promise. *)
Definition and_then {A B} (p : settled A) (f : A -> completion B) : settled B :=
  match p with
  | Fulfilled a =>
      match f a with
      | Return b => Fulfilled b
      | Throw e => Rejected e
      end
  | Rejected reason => Rejected reason
  end.

(** *** More of [Number] and [String]

    A zero has no sign here, so a division by zero takes the sign of the
    dividend alone. *)

Definition number_sign (a : number) : comparison :=
  match a with
  | NaN => Eq
  | NegInfinity => Lt
  | PosInfinity => Gt
  | Finite q => Qccompare q 0%Qc
  end.

Definition number_div (a b : number) : number :=
  match a, b with
  | NaN, _ | _, NaN => NaN
  | Finite p, Finite q =>
      if bool_decide (q = 0%Qc) then
        match Qccompare p 0%Qc with
        | Eq => NaN
        | Lt => NegInfinity
        | Gt => PosInfinity
        end
      else Finite (p / q)%Qc
  | Finite _, _ => int 0
  | _, Finite q =>
      match number_sign a, Qccompare q 0%Qc with
      | Lt, Lt | Gt, Gt | Gt, Eq => PosInfinity
      | _, _ => NegInfinity
      end
  | _, _ => NaN
  end.

(** [Math.round]: the nearest integer, a half going up. *)
Definition Math_round (n : number) : number :=
  match n with
  | Finite q => int (Qfloor (this q + (1 # 2)))
  | _ => n
  end.

(** [s] with zeros in front, up to [width] characters. *)
Fixpoint pad_zeros (missing : nat) (s : string) : string :=
  match missing with
  | O => s
  | S k => String "0" (pad_zeros k s)
  end.

(** [n.toFixed(fractionDigits)]: the magnitude is rounded to the nearest
    multiple of ten to the minus [fractionDigits], a half going up, and
    printed with that many digits after the point.  From 10^21 on the
    magnitude is handed to Number::toString, which [number_to_string]
    reproduces below 10^21 only. *)
Definition toFixed (n : number) (fractionDigits : nat) : string :=
  match n with
  | NaN => "NaN"
  | Finite q =>
      let x := Qabs (this q) in
      if Qle_bool (inject_Z (10 ^ 21)) x then number_to_string n
      else
        let sign := match Qccompare q 0%Qc with Lt => "-" | _ => "" end in
        let unit := (10 ^ Z.of_nat fractionDigits)%Z in
        let scaled := Qfloor (x * inject_Z unit + (1 # 2)) in
        let whole := pretty (scaled / unit)%Z in
        let fraction := pretty (scaled mod unit)%Z in
        match fractionDigits with
        | O => sign +:+ whole
        | _ =>
            sign +:+ whole +:+ "."
            +:+ pad_zeros (fractionDigits - String.length fraction) fraction
        end
  | _ => number_to_string n
  end.

(** [s.slice(start, stop)], [stop] being optional; a negative index counts
    from the end. *)
Definition slice (s : string) (start : Z) (stop : option Z) : string :=
  let chars := list_ascii_of_string s in
  let len := Z.of_nat (length chars) in
  let clamp k := if (k <? 0)%Z then Z.max (len + k) 0 else Z.min k len in
  let from := clamp start in
  let to := match stop with Some e => clamp e | None => len end in
  string_of_list_ascii (take (Z.to_nat (to - from)) (drop (Z.to_nat from) chars)).

(** [s.toUpperCase()], exact on ASCII: the letters a to z are raised, any
    other character is left as it is. *)
Definition upper (c : ascii) : ascii :=
  let n := N_of_ascii c in
  if ((97 <=? n) && (n <=? 122))%N then ascii_of_N (n - 32) else c.

Definition toUpperCase (s : string) : string :=
  string_of_list_ascii (map upper (list_ascii_of_string s)).

(** The text of a rejection reason or of a caught exception. *)
Definition exception_text (e : exception) : string :=
  match e with
  | TypeError => "TypeError"
  | SyntaxError => "SyntaxError"
  | Thrown v => ToString v
  end.

End JS.

(** ** util/general *)

Module General.
Import JS.

Section Platform.
(** [Platform.OS] of the device. *)
Variable OS : string.

Definition platformIOS : bool := String.eqb OS "ios".

Definition platformAndroid : bool := String.eqb OS "android".

Definition getPlatform : string := OS.

Definition getDirectionsURL (method stopLat stopLon : value) : string :=
  if platformIOS then
    if strict_eq_string method "walk" then
      "http://maps.apple.com/?saddr=Current%20Location&daddr="
        +:+ ToString stopLat +:+ "," +:+ ToString stopLon +:+ "&dirflg=w"
    else
      "http://maps.apple.com/?saddr=Current%20Location&daddr="
        +:+ ToString stopLat +:+ "," +:+ ToString stopLon +:+ "&dirflg=d"
  else
    if strict_eq_string method "walk" then
      "https://maps.google.com/maps?saddr=Current+Location&daddr="
        +:+ ToString stopLat +:+ "," +:+ ToString stopLon +:+ "&dirflg=w"
    else
      "https://maps.google.com/maps?saddr=Current+Location&daddr="
        +:+ ToString stopLat +:+ "," +:+ ToString stopLon +:+ "&dirflg=d".
End Platform.

(** The two templates [getDirectionsURL] chooses between. *)
Definition appleMapsTemplate : string :=
  "http://maps.apple.com/?saddr=Current%20Location&daddr=".

Definition googleMapsTemplate : string :=
  "https://maps.google.com/maps?saddr=Current+Location&daddr=".

(** *** The reload animation

    [Animated.Value] and the [Animated.timing] animation that drives it.
    Time is in milliseconds. *)

Record timing := {
  fromValue : Qc;
  toValue : Qc;
  duration : Z;
  easing : Qc -> Qc;
  startTime : Z
}.

Record AnimatedValue := {
  _value : Qc;
  _animation : option timing
}.

(** The value shown at time [now]: the animation interpolates from
    [fromValue] to [toValue] and holds its end value once the duration
    has passed. *)
Definition current (anim : AnimatedValue) (now : Z) : Qc :=
  match _animation anim with
  | None => _value anim
  | Some a =>
      if (startTime a + duration a <=? now)%Z then
        (fromValue a + easing a 1 * (toValue a - fromValue a))%Qc
      else
        (fromValue a
         + easing a (Qc_of_Z (now - startTime a) / Qc_of_Z (duration a))
           * (toValue a - fromValue a))%Qc
  end.

(** [Animated.timing(anim, {toValue, duration, easing}).start()] at time
    [now]: whatever animation was running is stopped where it is; a zero
    duration sets the end value at once, otherwise the new animation
    starts from the value the indicator currently has. *)
Definition timing_start (anim : AnimatedValue) (toValue : Qc) (duration : Z)
    (easing : Qc -> Qc) (now : Z) : AnimatedValue :=
  if (duration =? 0)%Z then
    {| _value := toValue; _animation := None |}
  else
    {| _value := current anim now;
       _animation := Some {| fromValue := current anim now;
                             toValue := toValue;
                             duration := duration;
                             easing := easing;
                             startTime := now |} |}.

(** [Easing.linear]. *)
Definition linear (t : Qc) : Qc := t.

Section Reload.
(** The easing [Animated.timing] uses when none is given. *)
Variable easeInOut : Qc -> Qc.

Definition startReloadAnimation2 (anim : AnimatedValue) (toVal : Qc)
    (duration : Z) (now : Z) : AnimatedValue :=
  timing_start anim toVal duration linear now.

Definition startReloadAnimation (anim : AnimatedValue) (now : Z) : AnimatedValue :=
  timing_start anim (Qc_of_Z 100) 60000 linear now.

Definition stopReloadAnimation (anim : AnimatedValue) (now : Z) : AnimatedValue :=
  timing_start anim (Qc_of_Z 0) 0 easeInOut now.
End Reload.

(** *** Time of day *)

Definition militaryToAMPM (time : string) : completion string :=
  if truthy (VString time) then
    let militaryTime := remove_first ":" (substring time 0 5) in
    let militaryTime := remove_leading_zero militaryTime in
    let '(militaryTimeHH, militaryTimeMM) :=
      if (String.length militaryTime =? 3)%nat then
        (VString (substring militaryTime 0 1), VString (substring militaryTime 1 3))
      else if (String.length militaryTime =? 4)%nat then
        (VString (substring militaryTime 0 2), VString (substring militaryTime 2 4))
      else (VUndefined, VUndefined) in
    let militaryTimeAMPM :=
      if lt militaryTimeHH (VNumber (int 12)) then "am" else "pm" in
    let militaryTimeHH :=
      if gt militaryTimeHH (VNumber (int 12)) then
        VNumber (number_sub (ToNumber militaryTimeHH) (int 12))
      else militaryTimeHH in
    let militaryTimeHH :=
      if strict_eq_string militaryTimeHH "0" then VString "12"
      else militaryTimeHH in
    let militaryTimeMM :=
      if strict_eq_string militaryTimeMM "00" then VString ""
      else militaryTimeMM in
    match get_length militaryTimeMM with
    | Throw e => Throw e
    | Return len =>
        if gt len (VNumber (int 0)) then
          Return (ToString militaryTimeHH +:+ ":" +:+ ToString militaryTimeMM
                  +:+ militaryTimeAMPM)
        else
          Return (ToString militaryTimeHH +:+ militaryTimeAMPM)
    end
  else Return "".

(** The digits [militaryToAMPM] works on: at most five characters, the
    first colon and then one leading zero removed. *)
Definition normalized (time : string) : string :=
  remove_leading_zero (remove_first ":" (substring time 0 5)).

(** The conversion as the specification words it, for an hour and a
    minute: hours from 12 on are pm and lose 12 above 12, hour 0 reads 12,
    minutes 00 are left out. *)
Definition two_digits (n : nat) : string :=
  if (n <? 10)%nat then "0" +:+ pretty n else pretty n.

Definition toDisplay_spec (h m : nat) : string :=
  let suffix := if (h <? 12)%nat then "am" else "pm" in
  let hour := if (h =? 0)%nat then 12 else if (12 <? h)%nat then h - 12 else h in
  if (m =? 0)%nat then pretty hour +:+ suffix
  else pretty hour +:+ ":" +:+ two_digits m +:+ suffix.

(** [militaryToAMPM] returns [expected]. *)
Definition returns (expected : string) (c : completion string) : bool :=
  match c with
  | Return s => String.eqb s expected
  | Throw _ => false
  end.

(** *** Comparators *)

Definition dynamicSort (property : string) (a b : gmap string value) : Z :=
  if lt (field a property) (field b property) then (-1)%Z
  else if gt (field a property) (field b property) then 1%Z
  else 0%Z.

Definition sortNearbyMarkers (a b : gmap string value) : Z :=
  if lt (field a "distance") (field b "distance") then (-1)%Z
  else if gt (field a "distance") (field b "distance") then 1%Z
  else 0%Z.

(** The distance a located entity carries. *)
Definition distance (e : gmap string value) : value := field e "distance".

(** The entity's distance is a number, and not NaN. *)
Definition numeric_distance (e : gmap string value) : Prop :=
  exists n, distance e = VNumber n /\ n <> NaN.

(** [a.distance <= b.distance]. *)
Definition distance_le (a b : gmap string value) : Prop :=
  number_le (ToNumber (distance a)) (ToNumber (distance b)) = true.

(** The entity is at distance [d]. *)
Definition at_distance (d : number) (e : gmap string value) : bool :=
  match distance e with
  | VNumber n => bool_decide (n = d)
  | _ => false
  end.

(** Modelled from the spec: DistanceRanker.rank, the ranking of a
    sequence of located entities; the call sites that sort with
    [sortNearbyMarkers] are not among the sources.  Section 4.2 makes it
    the stable sort of the sequence under the distance comparator. *)
Definition rank (entities : list (gmap string value)) : list (gmap string value) :=
  sort sortNearbyMarkers entities.

(** Three markers: one at distance 3, then two at distance 1. *)
Definition far : gmap string value :=
  <["name" := VString "far"]> (<["distance" := VNumber (int 3)]> ∅).

Definition near1 : gmap string value :=
  <["name" := VString "near1"]> (<["distance" := VNumber (int 1)]> ∅).

Definition near2 : gmap string value :=
  <["name" := VString "near2"]> (<["distance" := VNumber (int 1)]> ∅).

(** An indicator at rest at [v]. *)
Definition idle (v : Qc) : AnimatedValue :=
  {| _value := v; _animation := None |}.

(** *** Numbers for display *)

Definition round (number : JS.number) : JS.number := Math_round number.

Definition getDistanceMilesStr (miles : number) : string :=
  toFixed miles 1 +:+ " mi".

(** [now] is [Date.now()], the milliseconds since the epoch. *)
Definition getCurrentTimestamp (now : N) : number :=
  Math_round (number_div (int (Z.of_N now)) (int 1000)).

(** *** Random colours

    [random] is the text [Math.random().toString(16)] of a draw. *)
Definition getRandomColor (random : string) : string :=
  "#" +:+ slice ("000000" +:+ toUpperCase (slice random 2 (Some 8%Z))) (-6) None.

(** The loop of [getRandomColorArray]: [i] counts the colours pushed so
    far, [remaining] the turns that are left; the [i]-th turn takes the
    [i]-th draw. *)
Fixpoint push_colors (draw : nat -> string) (remaining i : nat)
    (randomColors : list string) : list string :=
  match remaining with
  | O => randomColors
  | S k => push_colors draw k (S i) (randomColors ++ [getRandomColor (draw i)])
  end.

Definition getRandomColorArray (draw : nat -> string) (length : Z) : list string :=
  push_colors draw (Z.to_nat length) 0 [].

(** The text of a draw: [0], or [0.] and hexadecimal digits in lower case. *)
Definition lower_hex (c : ascii) : bool :=
  let n := N_of_ascii c in
  ((48 <=? n) && (n <=? 57) || (97 <=? n) && (n <=? 102))%N.

Definition upper_hex (c : ascii) : bool :=
  let n := N_of_ascii c in
  ((48 <=? n) && (n <=? 57) || (65 <=? n) && (n <=? 70))%N.

Definition hex_fraction (random : string) : bool :=
  match random with
  | String "0" EmptyString => true
  | String "0" (String "." (String c rest)) =>
      forallb lower_hex (c :: list_ascii_of_string rest)
  | _ => false
  end.

(** A colour code: [#] and six hexadecimal digits in upper case. *)
Definition hex_color (s : string) : bool :=
  match s with
  | String "#" digits =>
      (String.length digits =? 6)%nat
      && forallb upper_hex (list_ascii_of_string digits)
  | _ => false
  end.

(** *** Opening a URL

    [Linking] of the platform, and what the helpers leave behind: the
    lines given to [logger.log] and the URLs handed to [Linking.openURL],
    oldest first. *)
Record Linking := {
  canOpenURL : string -> settled value;
  Linking_openURL : string -> settled value
}.

Record effects := {
  logged : list string;
  opened : list string
}.

Definition logger_log (line : string) (fx : effects) : effects :=
  {| logged := logged fx ++ [line]; opened := opened fx |}.

(** The promise chain of [openURL]; the function itself returns
    undefined. *)
Definition openURL (linking : Linking) (url : string) (fx : effects) : effects :=
  match canOpenURL linking url with
  | Fulfilled supported =>
      if negb (truthy supported) then
        logger_log ("ERR: openURL: Unable to handle url: " +:+ url) fx
      else
        let fx := {| logged := logged fx; opened := opened fx ++ [url] |} in
        match Linking_openURL linking url with
        | Fulfilled _ => fx
        | Rejected err => logger_log ("ERR: openURL: " +:+ exception_text err) fx
        end
  | Rejected err => logger_log ("ERR: openURL: " +:+ exception_text err) fx
  end.

Definition gotoNavigationApp (OS : string) (linking : Linking)
    (destinationLat destinationLon : value) (fx : effects) : effects :=
  let destinationURL :=
    getDirectionsURL OS (VString "walk") destinationLat destinationLon in
  openURL linking destinationURL fx.

(** The share of a linear ramp of [duration] milliseconds, started at
    [now], that is done at time [t]. *)
Definition progress (now duration t : Z) : Qc :=
  if (now + duration <=? t)%Z then 1%Qc
  else (Qc_of_Z (t - now) / Qc_of_Z duration)%Qc.

(** *** Sorting on any property *)

(** The property [p] of the object is a number, and not NaN. *)
Definition numeric_property (p : string) (e : gmap string value) : Prop :=
  exists n, field e p = VNumber n /\ n <> NaN.

(** [a[p] <= b[p]]. *)
Definition property_le (p : string) (a b : gmap string value) : Prop :=
  number_le (ToNumber (field a p)) (ToNumber (field b p)) = true.

(** The property [p] of the object is the number [d]. *)
Definition property_is (p : string) (d : number) (e : gmap string value) : bool :=
  match field e p with
  | VNumber n => bool_decide (n = d)
  | _ => false
  end.

End General.

(** ** services/diningService *)

Module DiningService.
Import JS.

(** A response as [fetch] delivers it; [json] is what [response.json()]
    gives: the parsed body, or the error thrown on a body that is not
    JSON. *)
Record Response := {
  status : Z;
  json : completion value
}.

Section Fetch.
(** [AppSettings.DINING_API_URL]. *)
Variable DINING_API_URL : string.
(** The platform's [fetch]: the promise is rejected when the transport
    fails, fulfilled with the response otherwise. *)
Variable fetch : string -> list (string * string) -> settled Response.

Definition FetchDining : settled value :=
  and_then
    (and_then
       (fetch DINING_API_URL [("Cache-Control", "no-cache")])
       (fun response => json response))
    (fun data =>
       match get data "errorMessage" with
       | Throw e => Throw e
       | Return errorMessage =>
           if truthy errorMessage then Throw (Thrown errorMessage)
           else get data "GetDiningInfoResult"
       end).
End Fetch.

(** A transport that delivers a response with status 200 and body [data]. *)
Definition delivers (data : value)
    : string -> list (string * string) -> settled Response :=
  fun _ _ => Fulfilled {| status := 200; json := Return data |}.

Definition menu : value := VArray [VString "64 Degrees"; VString "Pines"].

(** A body that reports a failure. *)
Definition failure_body : value :=
  VObject (<["errorMessage" := VString "Service unavailable"]> ∅).

(** A body that carries the error field, empty, next to the result. *)
Definition empty_error_body : value :=
  VObject (<["errorMessage" := VString ""]>
             (<["GetDiningInfoResult" := menu]> ∅)).

(** The value has a property of its own called [name]. *)
Definition carries (name : string) (data : value) : Prop :=
  match data with
  | VObject fields => is_Some (fields !! name)
  | _ => False
  end.

(** A transport that fails: [fetch] rejects with a TypeError. *)
Definition network_down
    : string -> list (string * string) -> settled Response :=
  fun _ _ => Rejected TypeError.

(** A transport that delivers a response with the given status and
    body. *)
Definition answers (code : Z) (data : value)
    : string -> list (string * string) -> settled Response :=
  fun _ _ => Fulfilled {| status := code; json := Return data |}.

End DiningService.

(** ** views/shuttle/ShuttleStop *)

Module ShuttleStop.

Definition stopUpdateInterval : N := 6000.

(** The functions handed to [setInterval]. *)
Inductive callback := TryUpdateStop.

(** An interval registered through the timer mixin: its callback, its
    period and the time it is next due, in milliseconds. *)
Record timer := {
  handler : callback;
  period : N;
  due : N
}.

(** The mounted view and the world around it. *)
Record state := {
  stopID : string;                (* this.props.stopID *)
  clock : N;                      (* current time *)
  intervals : list timer;         (* intervals held by the mixin *)
  analytics : list string;        (* logger.ga, latest first *)
  dispatched : list (N * string); (* calls of props.updateArrivals, latest first *)
  inFlight : bool;                (* a fetch of the session is under way *)
  outstanding : list string       (* fetches issued and not yet answered *)
}.

Definition initial (id : string) (now : N) : state :=
  {| stopID := id; clock := now; intervals := []; analytics := [];
     dispatched := []; inFlight := false; outstanding := [] |}.

Definition logger_ga (msg : string) (st : state) : state :=
  {| stopID := stopID st; clock := clock st; intervals := intervals st;
     analytics := msg :: analytics st;
     dispatched := dispatched st;
     inFlight := inFlight st; outstanding := outstanding st |}.

(** [this.setInterval(fn, ms)]: the first call of [fn] is due one full
    period from now. *)
Definition setInterval (fn : callback) (ms : N) (st : state) : state :=
  {| stopID := stopID st; clock := clock st;
     intervals := intervals st ++ [{| handler := fn; period := ms;
                                      due := clock st + ms |}];
     analytics := analytics st;
     dispatched := dispatched st;
     inFlight := inFlight st; outstanding := outstanding st |}.

(** Modelled from the spec: the [updateArrivals] action of
    actions/shuttle, which issues the fetches and is not among the
    sources.  Section 4.4: when [inFlight] is already true the attempt is
    skipped, not queued; otherwise [inFlight] is set and
    ArrivalFetcher.fetch(stopID) is called, the fetch being outstanding
    until it completes. *)
Definition updateArrivals (id : string) (st : state) : state :=
  if inFlight st then st
  else
    {| stopID := stopID st; clock := clock st; intervals := intervals st;
       analytics := analytics st;
       dispatched := dispatched st;
       inFlight := true;
       outstanding := outstanding st ++ [id] |}.

(** [this.props.updateArrivals], as [mapDispatchToProps] builds it. *)
Definition props_updateArrivals (id : string) (st : state) : state :=
  updateArrivals id
    {| stopID := stopID st; clock := clock st; intervals := intervals st;
       analytics := analytics st;
       dispatched := (clock st, id) :: dispatched st;
       inFlight := inFlight st; outstanding := outstanding st |}.

Definition tryUpdateStop (st : state) : state :=
  props_updateArrivals (stopID st) st.

Definition startShuttleWatch (st : state) : state :=
  setInterval TryUpdateStop stopUpdateInterval st.

Definition componentDidMount (st : state) : state :=
  startShuttleWatch (logger_ga "View Mounted: Shuttle Stop" st).

(** *** The passing of time *)

Definition run (fn : callback) (st : state) : state :=
  match fn with
  | TryUpdateStop => tryUpdateStop st
  end.

(** An interval that is due is armed again one period later. *)
Definition rearm (now : N) (t : timer) : timer :=
  if (due t <=? now)%N then
    {| handler := handler t; period := period t; due := due t + period t |}
  else t.

Definition due_handlers (now : N) (ts : list timer) : list callback :=
  map handler (List.filter (fun t => (due t <=? now)%N) ts).

(** One millisecond passes; the intervals that have come due fire. *)
Definition tick (st : state) : state :=
  let now := (clock st + 1)%N in
  fold_left (fun s fn => run fn s) (due_handlers now (intervals st))
    {| stopID := stopID st; clock := now;
       intervals := map (rearm now) (intervals st);
       analytics := analytics st;
       dispatched := dispatched st;
       inFlight := inFlight st; outstanding := outstanding st |}.

Definition elapse (ms : N) (st : state) : state := N.iter ms tick st.

(** Modelled from the spec: the completion of the fetch under way, with
    success or with failure.  Section 4.4: on completion [inFlight] is set
    to false regardless of the outcome. *)
Definition settle (st : state) : state :=
  {| stopID := stopID st; clock := clock st; intervals := intervals st;
     analytics := analytics st;
     dispatched := dispatched st;
     inFlight := false; outstanding := tail (outstanding st) |}.

(** What can happen to a mounted view: time passes, or the fetch under
    way completes. *)
Inductive event :=
| Elapse (ms : N)
| Settle.

Definition happen (e : event) (st : state) : state :=
  match e with
  | Elapse ms => elapse ms st
  | Settle => settle st
  end.

Definition run_events (events : list event) (st : state) : state :=
  fold_left (fun s e => happen e s) events st.

(** The flag and the fetches are in step: a fetch is outstanding exactly
    while [inFlight] is set, and then a single one. *)
Definition in_step (st : state) : Prop :=
  (inFlight st = true /\ exists id, outstanding st = [id])
  \/ (inFlight st = false /\ outstanding st = []).

(** The calls of [props.updateArrivals] a view mounted at [start] has made
    once [n] periods have passed, latest first: one at the end of each
    period. *)
Fixpoint polls (id : string) (start : N) (n : nat) : list (N * string) :=
  match n with
  | O => []
  | S k => ((start + stopUpdateInterval * N.of_nat (S k))%N, id) :: polls id start k
  end.

(** [componentWillUnmount] of the timer mixin: every interval the view
    holds is cleared. *)
Definition componentWillUnmount (st : state) : state :=
  {| stopID := stopID st; clock := clock st; intervals := [];
     analytics := analytics st;
     dispatched := dispatched st;
     inFlight := inFlight st; outstanding := outstanding st |}.

(** What the timers act on: all of the state but the fetches. *)
Definition schedule (st : state)
    : string * N * list timer * list (N * string) :=
  (stopID st, clock st, intervals st, dispatched st).

End ShuttleStop.

(** ** views/shuttle/ShuttleStop: what [render] returns *)

Module ShuttleStopView.
Import JS.

(** A React element: null, a text, a value put in braces, or a component
    with its props, in the order they are written, and its children. *)
#[warnings="-register-all"] Inductive element :=
| ENull
| EText (text : string)
| EExpr (v : value)
| Element (type : string) (props : list (string * value)) (children : list element).

#[global] Instance completion_bind : MBind completion :=
  fun A B f c =>
    match c with
    | Return a => f a
    | Throw e => Throw e
    end.

(** An object literal. *)
Definition object (fields : list (string * value)) : value :=
  VObject (list_to_map fields).

(** [this.props] of the view: the stop shown, the stops of the store, an
    object with one entry for each stop id, and the position of the
    device. *)
Record props := {
  stopID : string;
  stops : gmap string value;
  location : value
}.

Section Render.
(** The style sheet, the table of stop images and the width of the
    window, none of which is defined in these sources. *)
Variable css : string -> value.
Variable ShuttleImageDict : gmap string value.
Variable deviceWidth : number.

Definition render (this_props : props) : completion element :=
  let stopID := stopID this_props in
  let stops := stops this_props in
  let image :=
    if truthy (field ShuttleImageDict stopID) then
      Element "Image"
        [("style", css "shuttlestop_image");
         ("source", field ShuttleImageDict stopID)] []
    else ENull in
  let stop := field stops stopID in
  name ← get stop "name";
  arrivals ← get stop "arrivals";
  let shuttles :=
    if truthy arrivals then
      Element "ShuttleSmallList"
        [("arrivalData", arrivals);
         ("style", object [("width", VNumber deviceWidth)]);
         ("rows", VNumber (int 3));
         ("scrollEnabled", VBool false)] []
    else
      Element "View" [("style", css "shuttle_stop_arrivals_container")]
        [Element "Text" [("style", css "shuttle_stop_next_arrivals_text")]
           [EText "There are no active shuttles at this time"]] in
  coords ← get (location this_props) "coords";
  latitude ← get coords "latitude";
  longitude ← get coords "longitude";
  lat ← get stop "lat";
  lon ← get stop "lon";
  title ← get lat "name";
  description ← get lat "name";
  key ← get lat "name";
  Return
    (Element "View" [("style", VArray [css "main_container"; css "offwhitebg"])]
       [Element "ScrollView" [("contentContainerStyle", css "scroll_default")]
          [image;
           Element "View" [("style", css "shuttlestop_name_container")]
             [Element "Text" [("style", css "shuttlestop_name_text")]
                [EExpr name]];
           shuttles;
           Element "View" [("style", css "shuttle_stop_map_container")]
             [Element "MapView"
                [("style", css "shuttlestop_map");
                 ("loadingEnabled", VBool true);
                 ("loadingIndicatorColor", VString "#666");
                 ("loadingBackgroundColor", VString "#EEE");
                 ("showsUserLocation", VBool true);
                 ("mapType", VString "standard");
                 ("initialRegion",
                  object [("latitude", latitude);
                          ("longitude", longitude);
                          ("latitudeDelta", VNumber (Finite (Q2Qc (1 # 10))));
                          ("longitudeDelta", VNumber (Finite (Q2Qc (1 # 10))))])]
                [Element "MapView.Marker"
                   [("coordinate",
                     object [("latitude", lat); ("longitude", lon)]);
                    ("title", title);
                    ("description", description);
                    ("key", key)] []]]]]).
End Render.

(** *** Looking into an element *)

(** The texts written in the element, in order. *)
Fixpoint texts (e : element) : list string :=
  match e with
  | EText text => [text]
  | Element _ _ children => List.flat_map texts children
  | _ => []
  end.

(** The element and everything inside it, in order. *)
Fixpoint descendants (e : element) : list element :=
  e :: match e with
       | Element _ _ children => List.flat_map descendants children
       | _ => []
       end.

Definition has_type (type : string) (e : element) : bool :=
  match e with
  | Element t _ _ => String.eqb t type
  | _ => false
  end.

(** The components of the given type inside the element. *)
Definition components (type : string) (e : element) : list element :=
  List.filter (has_type type) (descendants e).

(** The value of a prop of a component, undefined when it has none. *)
Definition prop (name : string) (e : element) : value :=
  match e with
  | Element _ props _ =>
      match List.find (fun p => String.eqb (fst p) name) props with
      | Some p => snd p
      | None => VUndefined
      end
  | _ => VUndefined
  end.

(** The value is undefined or null. *)
Definition nullish (v : value) : bool :=
  match v with
  | VUndefined | VNull => true
  | _ => false
  end.

(** [v.name], undefined where the read would throw. *)
Definition read (v : value) (name : string) : value :=
  match get v name with
  | Return x => x
  | Throw _ => VUndefined
  end.

(** A stop with arrivals fetched and found empty, and the props of a view
    on it. *)
Definition quiet_stop : value :=
  VObject (<["name" := VString "Gilman"]>
             (<["lat" := VNumber (int 32)]>
                (<["lon" := VNumber (int (-117))]>
                   (<["arrivals" := VArray []]> ∅)))).

Definition here : value :=
  VObject (<["coords" :=
             VObject (<["latitude" := VNumber (int 32)]>
                        (<["longitude" := VNumber (int (-117))]> ∅))]> ∅).

Definition quiet_props : props :=
  {| stopID := "10"; stops := <["10" := quiet_stop]> ∅;
     location := here |}.

(** The props of a view on a stop the store does not hold. *)
Definition stray_props : props :=
  {| stopID := "11"; stops := <["10" := quiet_stop]> ∅;
     location := here |}.

(** What [render] returns for a view on the quiet stop, with a style
    sheet of names, no stop image and a window 400 wide. *)
Definition quiet_tree : element :=
  match render VString ∅ (int 400) quiet_props with
  | Return tree => tree
  | Throw _ => ENull
  end.

End ShuttleStopView.

(** * Properties *)

(** ** TimeFormat: [militaryToAMPM] *)

Module TimeFormat.
Import JS General.

Lemma truthy_nonempty (s : string) : s <> "" -> truthy (VString s) = true.
Proof.
  intros Hne. simpl. destruct (String.eqb_spec s ""); [contradiction | reflexivity].
Qed.

(** When the normalized digits are neither three nor four, hour and
    minutes stay undefined and reading [militaryTimeMM.length] throws. *)
Lemma militaryToAMPM_other_length (time : string) :
  time <> "" ->
  String.length (normalized time) <> 3 ->
  String.length (normalized time) <> 4 ->
  militaryToAMPM time = Throw TypeError.
Proof.
  intros Hne H3 H4. unfold militaryToAMPM.
  rewrite (truthy_nonempty _ Hne).
  fold (normalized time).
  destruct (Nat.eqb_spec (String.length (normalized time)) 3); [contradiction |].
  destruct (Nat.eqb_spec (String.length (normalized time)) 4); [contradiction |].
  reflexivity.
Qed.

(** C3: a non-empty input that normalizes to fewer than three characters
    makes [militaryToAMPM] throw a TypeError instead of returning a
    fallback string. *)
Theorem militaryToAMPM_short_input_throws (time : string) :
  time <> "" ->
  String.length (normalized time) < 3 ->
  militaryToAMPM time = Throw TypeError.
Proof.
  intros Hne Hshort. apply militaryToAMPM_other_length; [assumption | lia | lia].
Qed.

Lemma militaryToAMPM_short_input_throws_witness :
  militaryToAMPM "12" = Throw TypeError.
Proof.
  apply (militaryToAMPM_short_input_throws "12").
  - discriminate.
  - vm_compute. lia.
Defined.

(** On every time of day, written HHMM or HH:MM, the function agrees with
    the conversion the specification describes. *)
Lemma militaryToAMPM_time_of_day (h m : nat) :
  h < 24 -> m < 60 ->
  militaryToAMPM (two_digits h +:+ two_digits m) = Return (toDisplay_spec h m)
  /\ militaryToAMPM (two_digits h +:+ ":" +:+ two_digits m)
     = Return (toDisplay_spec h m).
Proof.
  intros Hh Hm.
  assert (Hall : forallb (fun h => forallb (fun m =>
            returns (toDisplay_spec h m) (militaryToAMPM (two_digits h +:+ two_digits m))
            && returns (toDisplay_spec h m)
                 (militaryToAMPM (two_digits h +:+ ":" +:+ two_digits m)))
            (seq 0 60)) (seq 0 24) = true)
    by (vm_compute; reflexivity).
  rewrite forallb_forall in Hall.
  specialize (Hall h ltac:(apply in_seq; lia)).
  rewrite forallb_forall in Hall.
  specialize (Hall m ltac:(apply in_seq; lia)).
  apply andb_true_iff in Hall as [H1 H2].
  unfold returns in H1, H2.
  destruct (militaryToAMPM (two_digits h +:+ two_digits m)); [| discriminate].
  destruct (militaryToAMPM (two_digits h +:+ ":" +:+ two_digits m)); [| discriminate].
  apply String.eqb_eq in H1, H2. now subst.
Qed.

(** C4: the five reference conversions. *)
Theorem militaryToAMPM_reference_outputs :
  militaryToAMPM "" = Return ""
  /\ militaryToAMPM "0900" = Return "9am"
  /\ militaryToAMPM "1430" = Return "2:30pm"
  /\ militaryToAMPM "0005" = Return "12:05am"
  /\ militaryToAMPM "1200" = Return "12pm".
Proof. repeat split; vm_compute; reflexivity. Qed.

End TimeFormat.

(** ** Directions handoff: [getDirectionsURL] *)

Module Directions.
Import JS General.

Lemma append_assoc (a b c : string) : (a +:+ b) +:+ c = a +:+ (b +:+ c).
Proof.
  induction a as [| x a IH]; [reflexivity |].
  change (String x ((a +:+ b) +:+ c) = String x (a +:+ (b +:+ c))).
  now rewrite IH.
Qed.

Lemma length_append (a b : string) :
  String.length (a +:+ b) = String.length a + String.length b.
Proof.
  induction a as [| x a IH]; [reflexivity |].
  change (S (String.length (a +:+ b)) = S (String.length a + String.length b)).
  now rewrite IH.
Qed.

Lemma startsWith_append (p s : string) : startsWith p (p +:+ s) = true.
Proof.
  unfold startsWith. induction p as [| x p IH].
  - now destruct s.
  - change (String.prefix (String x p) (String x (p +:+ s)) = true).
    simpl. destruct (ascii_dec x x); [exact IH | contradiction].
Qed.

Lemma endsWith_append (p s : string) : endsWith p (s +:+ p) = true.
Proof.
  induction s as [| x s IH].
  - change (endsWith p p = true).
    destruct p; simpl; [reflexivity |].
    now rewrite Ascii.eqb_refl, String.eqb_refl.
  - change (endsWith p (String x (s +:+ p)) = true).
    simpl. rewrite IH. apply orb_true_r.
Qed.

Lemma endsWith_longer (p u : string) :
  String.length u < String.length p -> endsWith p u = false.
Proof.
  induction u as [| z u IHu]; intros Hu.
  - destruct p; [simpl in Hu; lia | reflexivity].
  - simpl. rewrite orb_false_iff. split.
    + destruct (String.eqb_spec p (String z u)) as [-> |]; [| reflexivity].
      simpl in Hu. lia.
    + apply IHu. simpl in Hu. lia.
Qed.

(** A string does not end with a suffix of the same length that differs
    from its own. *)
Lemma endsWith_other (p q s : string) :
  String.length p = String.length q -> p <> q ->
  endsWith p (s +:+ q) = false.
Proof.
  intros Hlen Hne. induction s as [| x s IH].
  - change (endsWith p q = false).
    destruct q as [| y q]; simpl.
    + destruct p; [contradiction | discriminate].
    + rewrite orb_false_iff. split.
      * destruct (String.eqb_spec p (String y q)); [contradiction | reflexivity].
      * apply endsWith_longer. simpl in Hlen. lia.
  - change (endsWith p (String x (s +:+ q)) = false).
    simpl. rewrite IH, orb_false_r.
    destruct (String.eqb_spec p (String x (s +:+ q))) as [Heq |]; [| reflexivity].
    apply (f_equal String.length) in Heq. simpl in Heq.
    rewrite length_append in Heq. lia.
Qed.

Lemma strict_eq_string_spec (v : value) (literal : string) :
  strict_eq_string v literal = true <-> v = VString literal.
Proof.
  destruct v; simpl; try (split; [discriminate | intros [=]]).
  destruct (String.eqb_spec s literal) as [-> |]; split; try easy.
  intros [=]. contradiction.
Qed.

(** C9: the two templates differ.  When the platform is ["ios"] the URL
    is the Apple Maps template, on any other platform the Google Maps
    template, followed by the destination and by the walking flag when the
    method is the string ["walk"], by the driving flag for any other
    method.  So the URL starts with the Apple Maps template exactly on
    ["ios"] and with the Google Maps template exactly elsewhere, and it
    ends with [&dirflg=w] exactly when the method is ["walk"] and with
    [&dirflg=d] exactly when it is anything else. *)
Theorem getDirectionsURL_templates (OS : string) (method stopLat stopLon : value) :
  let url := getDirectionsURL OS method stopLat stopLon in
  let destination := ToString stopLat +:+ "," +:+ ToString stopLon in
  appleMapsTemplate = "http://maps.apple.com/?saddr=Current%20Location&daddr="
  /\ googleMapsTemplate
     = "https://maps.google.com/maps?saddr=Current+Location&daddr="
  /\ appleMapsTemplate <> googleMapsTemplate
  /\ (OS = "ios" -> method = VString "walk" ->
      url = appleMapsTemplate +:+ destination +:+ "&dirflg=w")
  /\ (OS = "ios" -> method <> VString "walk" ->
      url = appleMapsTemplate +:+ destination +:+ "&dirflg=d")
  /\ (OS <> "ios" -> method = VString "walk" ->
      url = googleMapsTemplate +:+ destination +:+ "&dirflg=w")
  /\ (OS <> "ios" -> method <> VString "walk" ->
      url = googleMapsTemplate +:+ destination +:+ "&dirflg=d")
  /\ (startsWith appleMapsTemplate url = true <-> OS = "ios")
  /\ (startsWith googleMapsTemplate url = true <-> OS <> "ios")
  /\ (endsWith "&dirflg=w" url = true <-> method = VString "walk")
  /\ (endsWith "&dirflg=d" url = true <-> method <> VString "walk").
Proof.
  intros url destination.
  assert (Hios : platformIOS OS = true <-> OS = "ios")
    by (unfold platformIOS; apply String.eqb_eq).
  pose proof (strict_eq_string_spec method "walk") as Hwalk.
  assert (Hurl : url = (if platformIOS OS then appleMapsTemplate else googleMapsTemplate)
          +:+ destination
          +:+ (if strict_eq_string method "walk" then "&dirflg=w" else "&dirflg=d")).
  { subst url destination. unfold getDirectionsURL.
    destruct (platformIOS OS), (strict_eq_string method "walk");
      unfold appleMapsTemplate, googleMapsTemplate;
      rewrite ?append_assoc; reflexivity. }
  assert (Ha : startsWith appleMapsTemplate url = platformIOS OS).
  { rewrite Hurl.
    destruct (platformIOS OS); [apply startsWith_append | reflexivity]. }
  assert (Hg : startsWith googleMapsTemplate url = negb (platformIOS OS)).
  { rewrite Hurl.
    destruct (platformIOS OS); [reflexivity | apply startsWith_append]. }
  assert (Hw : endsWith "&dirflg=w" url = strict_eq_string method "walk").
  { rewrite Hurl, <- !append_assoc.
    destruct (strict_eq_string method "walk");
      [apply endsWith_append | now apply endsWith_other]. }
  assert (Hd : endsWith "&dirflg=d" url = negb (strict_eq_string method "walk")).
  { rewrite Hurl, <- !append_assoc.
    destruct (strict_eq_string method "walk");
      [now apply endsWith_other | apply endsWith_append]. }
  rewrite Ha, Hg, Hw, Hd.
  split; [reflexivity |]. split; [reflexivity |]. split; [discriminate |].
  clear Ha Hg Hw Hd.
  destruct (platformIOS OS), (strict_eq_string method "walk");
    cbv iota in Hurl; cbn [negb]; intuition congruence.
Qed.

End Directions.

(** ** [Array.prototype.sort] under a comparator *)

Module SortFacts.
Import JS.

Section Comparator.
Context {A : Type} (compareFn : A -> A -> Z).

Lemma insert_perm (x : A) (l : list A) :
  Permutation (x :: l) (JS.insert compareFn x l).
Proof.
  induction l as [| y r IH]; simpl; [reflexivity |].
  destruct (compareFn x y <=? 0)%Z; [reflexivity |].
  rewrite perm_swap. now apply perm_skip.
Qed.

Lemma sort_perm (l : list A) : Permutation l (sort compareFn l).
Proof.
  induction l as [| x r IH]; simpl; [reflexivity |].
  rewrite <- insert_perm. now apply perm_skip.
Qed.

(** Sortedness, for the elements [good] on which the comparator
    agrees with a transitive order [le]. *)
Section Sorted.
Variables (good : A -> Prop) (le : A -> A -> Prop).
Hypothesis le_trans :
  forall x y z, good x -> good y -> good z -> le x y -> le y z -> le x z.
Hypothesis compare_le :
  forall x y, good x -> good y -> (compareFn x y <= 0)%Z -> le x y.
Hypothesis compare_gt :
  forall x y, good x -> good y -> (0 < compareFn x y)%Z -> le y x.

Lemma insert_sorted (x : A) (l : list A) :
  good x -> Forall good l ->
  StronglySorted le l -> StronglySorted le (JS.insert compareFn x l).
Proof.
  intros Hx Hl Hs. induction Hs as [| y r Hr IH Hy]; simpl.
  - repeat constructor.
  - inversion Hl as [| ? ? Hgy Hgr]; subst.
    destruct (Z.leb_spec (compareFn x y) 0) as [Hle | Hgt].
    + constructor; [now constructor |].
      constructor; [now apply compare_le |].
      rewrite Forall_forall in *. intros z Hz.
      apply (le_trans x y z); auto.
    + constructor; [now apply IH |].
      rewrite <- (insert_perm x r).
      constructor; [now apply compare_gt | assumption].
Qed.

Lemma sort_sorted (l : list A) :
  Forall good l -> StronglySorted le (sort compareFn l).
Proof.
  induction l as [| x r IH]; intros Hl; simpl; [constructor |].
  inversion Hl; subst.
  apply insert_sorted; auto.
  now rewrite <- sort_perm.
Qed.
End Sorted.

(** Stability: a class of elements that the comparator never orders
    strictly keeps its order. *)
Section Stable.
Variable same : A -> bool.
Hypothesis same_not_gt :
  forall x y, same x = true -> same y = true -> (compareFn x y <= 0)%Z.

Lemma insert_stable (x : A) (l : list A) :
  List.filter same (JS.insert compareFn x l) = List.filter same (x :: l).
Proof.
  induction l as [| y r IH]; [reflexivity |].
  simpl. destruct (Z.leb_spec (compareFn x y) 0) as [Hle | Hgt];
    [reflexivity |].
  simpl. rewrite IH. simpl.
  destruct (same x) eqn:Ex, (same y) eqn:Ey; try reflexivity.
  specialize (same_not_gt x y Ex Ey). lia.
Qed.

Lemma sort_stable (l : list A) :
  List.filter same (sort compareFn l) = List.filter same l.
Proof.
  induction l as [| x r IH]; [reflexivity |].
  simpl sort. rewrite insert_stable. simpl. now rewrite IH.
Qed.
End Stable.
End Comparator.

Lemma sort_ext {A : Type} (f g : A -> A -> Z) (l : list A) :
  (forall a b, f a b = g a b) -> sort f l = sort g l.
Proof.
  intros Hfg. induction l as [| x r IH]; [reflexivity |].
  simpl. rewrite IH. generalize (sort g r) as s.
  induction s as [| y s IHs]; [reflexivity |].
  simpl. now rewrite Hfg, IHs.
Qed.

End SortFacts.

(** ** DistanceRanker: the comparators and the ranking *)

Module DistanceRanker.
Import JS General.

Lemma number_lt_Finite (p q : Qc) :
  number_lt (Finite p) (Finite q) = true <-> (p < q)%Qc.
Proof.
  simpl. rewrite Qclt_alt.
  destruct (p ?= q)%Qc; split; congruence.
Qed.

Lemma number_lt_asym (a b : number) :
  number_lt a b = true -> number_lt b a = false.
Proof.
  destruct a as [| | p |], b as [| | q |]; try (simpl; congruence).
  rewrite number_lt_Finite. intros Hlt.
  destruct (number_lt (Finite q) (Finite p)) eqn:E; [| reflexivity].
  apply number_lt_Finite in E.
  exfalso. apply (Qclt_not_le _ _ Hlt). now apply Qclt_le_weak.
Qed.

Lemma number_lt_le (a b : number) :
  number_lt a b = true -> number_le a b = true.
Proof.
  intros Hlt. pose proof (number_lt_asym _ _ Hlt) as Hba.
  destruct a, b; simpl in *; try congruence; now rewrite Hba.
Qed.

Lemma number_le_not_lt (a b : number) :
  a <> NaN -> b <> NaN -> number_lt b a = false -> number_le a b = true.
Proof.
  intros Ha Hb Hlt.
  destruct a, b; try congruence;
    try (change (negb (number_lt (Finite q0) (Finite q)) = true);
         now rewrite Hlt);
    simpl in *; congruence.
Qed.

Lemma number_le_trans (a b c : number) :
  number_le a b = true -> number_le b c = true -> number_le a c = true.
Proof.
  destruct a as [| | p |], b as [| | q |], c as [| | r |];
    try (simpl; congruence).
  unfold number_le. rewrite !negb_true_iff. intros Hqp Hrq.
  destruct (number_lt (Finite r) (Finite p)) eqn:E; [| reflexivity].
  apply number_lt_Finite in E.
  assert (Hpq : (p <= q)%Qc).
  { apply Qcnot_lt_le. intros H. apply number_lt_Finite in H. congruence. }
  assert (Hqr : (q <= r)%Qc).
  { apply Qcnot_lt_le. intros H. apply number_lt_Finite in H. congruence. }
  exfalso. apply (Qclt_not_le _ _ E). now apply Qcle_trans with q.
Qed.

Lemma number_lt_irrefl (a : number) : number_lt a a = false.
Proof.
  destruct (number_lt a a) eqn:E; [| reflexivity].
  pose proof (number_lt_asym _ _ E). congruence.
Qed.

(** The comparator on two entities whose distances are numbers. *)
Lemma sortNearbyMarkers_numbers (a b : gmap string value) (m n : number) :
  distance a = VNumber m -> distance b = VNumber n ->
  sortNearbyMarkers a b
  = if number_lt m n then (-1)%Z else if number_lt n m then 1%Z else 0%Z.
Proof.
  unfold sortNearbyMarkers, distance. intros -> ->. reflexivity.
Qed.

Lemma sortNearbyMarkers_le (a b : gmap string value) :
  numeric_distance a -> numeric_distance b ->
  (sortNearbyMarkers a b <= 0)%Z -> distance_le a b.
Proof.
  intros (m & Ha & Hm) (n & Hb & Hn).
  rewrite (sortNearbyMarkers_numbers a b m n Ha Hb).
  unfold distance_le. rewrite Ha, Hb. simpl.
  destruct (number_lt m n) eqn:Emn; intros Hle.
  - now apply number_lt_le.
  - destruct (number_lt n m) eqn:Enm; [lia |].
    now apply number_le_not_lt.
Qed.

Lemma sortNearbyMarkers_gt (a b : gmap string value) :
  numeric_distance a -> numeric_distance b ->
  (0 < sortNearbyMarkers a b)%Z -> distance_le b a.
Proof.
  intros (m & Ha & Hm) (n & Hb & Hn).
  rewrite (sortNearbyMarkers_numbers a b m n Ha Hb).
  unfold distance_le. rewrite Ha, Hb. simpl.
  destruct (number_lt m n) eqn:Emn; [lia |].
  destruct (number_lt n m) eqn:Enm; [| lia].
  intros _. now apply number_lt_le.
Qed.

Lemma distance_le_trans (a b c : gmap string value) :
  distance_le a b -> distance_le b c -> distance_le a c.
Proof. unfold distance_le. apply number_le_trans. Qed.

Lemma sortNearbyMarkers_at_distance (d : number) (a b : gmap string value) :
  at_distance d a = true -> at_distance d b = true ->
  (sortNearbyMarkers a b <= 0)%Z.
Proof.
  unfold at_distance. intros Ha Hb.
  destruct (distance a) as [| | | m | | |] eqn:Da; try discriminate.
  destruct (distance b) as [| | | n | | |] eqn:Db; try discriminate.
  apply bool_decide_eq_true in Ha, Hb. subst m n.
  rewrite (sortNearbyMarkers_numbers a b d d Da Db).
  rewrite number_lt_irrefl. lia.
Qed.

Lemma rank_sorted_stable_facts (entities : list (gmap string value)) :
  Forall numeric_distance entities ->
  Permutation entities (rank entities)
  /\ StronglySorted distance_le (rank entities)
  /\ forall d, List.filter (at_distance d) (rank entities)
               = List.filter (at_distance d) entities.
Proof.
  intros Hnum. unfold rank. repeat split.
  - apply SortFacts.sort_perm.
  - apply (SortFacts.sort_sorted sortNearbyMarkers numeric_distance distance_le).
    + intros x y z _ _ _. apply distance_le_trans.
    + apply sortNearbyMarkers_le.
    + apply sortNearbyMarkers_gt.
    + assumption.
  - intros d. apply SortFacts.sort_stable.
    apply sortNearbyMarkers_at_distance.
Qed.

(** C5: ranking the empty sequence gives the empty sequence; ranking
    entities that each carry a numeric distance gives a permutation of
    the input, sorted ascending by distance, in which the entities at any
    one distance keep the order they had in the input. *)
Theorem rank_sorted_stable_permutation (entities : list (gmap string value)) :
  Forall numeric_distance entities ->
  rank [] = []
  /\ Permutation entities (rank entities)
  /\ StronglySorted distance_le (rank entities)
  /\ forall d, List.filter (at_distance d) (rank entities)
               = List.filter (at_distance d) entities.
Proof.
  intros Hnum. split; [reflexivity |].
  now apply rank_sorted_stable_facts.
Qed.

Lemma rank_sorted_stable_permutation_witness :
  rank [] = []
  /\ Permutation [far; near1; near2] (rank [far; near1; near2])
  /\ StronglySorted distance_le (rank [far; near1; near2])
  /\ forall d, List.filter (at_distance d) (rank [far; near1; near2])
               = List.filter (at_distance d) [far; near1; near2].
Proof.
  apply (rank_sorted_stable_permutation [far; near1; near2]).
  repeat constructor.
  - exists (int 3). split; [vm_compute; reflexivity | discriminate].
  - exists (int 1). split; [vm_compute; reflexivity | discriminate].
  - exists (int 1). split; [vm_compute; reflexivity | discriminate].
Defined.

Lemma number_le_antisym (a b : number) :
  number_le a b = true -> number_le b a = true -> a = b.
Proof.
  destruct a as [| | p |], b as [| | q |]; try (simpl; congruence).
  unfold number_le. rewrite !negb_true_iff. intros Hqp Hpq.
  f_equal. apply Qcle_antisym; apply Qcnot_lt_le; intros H;
    apply number_lt_Finite in H; congruence.
Qed.

Lemma at_distance_numeric (e : gmap string value) (n : number) :
  distance e = VNumber n -> at_distance n e = true.
Proof. unfold at_distance. intros ->. now apply bool_decide_eq_true. Qed.

(** Two sorted arrangements of the same entities that agree on the order
    within every distance are the same list. *)
Lemma sorted_stable_unique (l1 l2 : list (gmap string value)) :
  Forall numeric_distance l1 ->
  Permutation l1 l2 ->
  StronglySorted distance_le l1 ->
  StronglySorted distance_le l2 ->
  (forall d, List.filter (at_distance d) l1 = List.filter (at_distance d) l2) ->
  l1 = l2.
Proof.
  revert l2. induction l1 as [| x r1 IH]; intros l2 Hnum Hperm Hs1 Hs2 Hst.
  - symmetry. now apply Permutation_nil.
  - destruct l2 as [| y r2].
    + symmetry in Hperm. apply Permutation_nil in Hperm. discriminate.
    + inversion Hnum as [| ? ? Hx Hr1]; subst.
      inversion Hs1 as [| ? ? Hs1' Hx1]; subst.
      inversion Hs2 as [| ? ? Hs2' Hy2]; subst.
      assert (Hxy : x = y).
      { assert (Hy : numeric_distance y).
        { rewrite Stdlib.Lists.List.Forall_forall in Hnum. apply Hnum.
          apply (Permutation_in y (Permutation_sym Hperm)). now left. }
        destruct Hx as (m & Dx & _), Hy as (n & Dy & _).
        assert (Hin1 : In x (y :: r2)) by (apply (Permutation_in x Hperm); now left).
        assert (Hin2 : In y (x :: r1))
          by (apply (Permutation_in y (Permutation_sym Hperm)); now left).
        destruct Hin1 as [-> | Hin1]; [reflexivity |].
        destruct Hin2 as [-> | Hin2]; [reflexivity |].
        rewrite Stdlib.Lists.List.Forall_forall in Hx1, Hy2.
        pose proof (Hy2 x Hin1) as Hyx. pose proof (Hx1 y Hin2) as Hxy.
        unfold distance_le in Hyx, Hxy. rewrite Dx, Dy in Hyx, Hxy.
        simpl in Hyx, Hxy.
        assert (m = n) by now apply number_le_antisym. subst n.
        specialize (Hst m). simpl in Hst.
        rewrite (at_distance_numeric x m Dx), (at_distance_numeric y m Dy) in Hst.
        now injection Hst. }
      subst y. f_equal. apply IH; auto.
      * now apply Permutation_cons_inv with x.
      * intros d. specialize (Hst d). simpl in Hst.
        destruct (at_distance d x); [now injection Hst | assumption].
Qed.

(** The ranking is the only sorted, stable arrangement of the entities:
    whichever stable sort produces it, the result is [rank entities]. *)
Lemma rank_unique (entities ranked : list (gmap string value)) :
  Forall numeric_distance entities ->
  Permutation entities ranked ->
  StronglySorted distance_le ranked ->
  (forall d, List.filter (at_distance d) ranked
             = List.filter (at_distance d) entities) ->
  ranked = rank entities.
Proof.
  intros Hnum Hperm Hsorted Hstable.
  destruct (rank_sorted_stable_facts entities Hnum) as (Hp & Hs & Hf).
  apply sorted_stable_unique; auto.
  - now rewrite <- Hperm.
  - now rewrite <- Hperm.
  - intros d. now rewrite Hstable, Hf.
Qed.

Example rank_far_near : rank [far; near1; near2] = [near1; near2; far].
Proof. vm_compute. reflexivity. Qed.

(** C10: the marker comparator returns what the generic comparator on
    the property ["distance"] returns, hence sorting with either gives
    the same list. *)
Theorem sortNearbyMarkers_dynamicSort :
  (forall a b : gmap string value,
      sortNearbyMarkers a b = dynamicSort "distance" a b)
  /\ (forall l : list (gmap string value),
        sort sortNearbyMarkers l = sort (dynamicSort "distance") l).
Proof.
  assert (H : forall a b, sortNearbyMarkers a b = dynamicSort "distance" a b).
  { intros a b. unfold sortNearbyMarkers, dynamicSort.
    destruct (lt (field a "distance") (field b "distance")); [reflexivity |].
    destruct (gt (field a "distance") (field b "distance")); reflexivity. }
  split; [exact H |].
  intros l. now apply SortFacts.sort_ext.
Qed.

End DistanceRanker.

(** ** ArrivalFetcher: [FetchDining] *)

Module ArrivalFetcher.
Import JS DiningService.

(** A transport failure is passed on unchanged. *)
Lemma FetchDining_transport_failure (url : string)
    (fetch : string -> list (string * string) -> settled Response)
    (reason : exception) :
  fetch url [("Cache-Control", "no-cache")] = Rejected reason ->
  FetchDining url fetch = Rejected reason.
Proof. intros H. unfold FetchDining. now rewrite H. Qed.

(** A body that is not JSON rejects with the parser's error. *)
Lemma FetchDining_bad_body (url : string)
    (fetch : string -> list (string * string) -> settled Response)
    (r : Response) (e : exception) :
  fetch url [("Cache-Control", "no-cache")] = Fulfilled r ->
  json r = Throw e ->
  FetchDining url fetch = Rejected e.
Proof. intros H J. unfold FetchDining. rewrite H. simpl. now rewrite J. Qed.

(** The fetch is fulfilled only by a delivered response whose body
    parses and whose [errorMessage] is missing or falsy. *)
Lemma FetchDining_fulfilled_inv (url : string)
    (fetch : string -> list (string * string) -> settled Response)
    (v : value) :
  FetchDining url fetch = Fulfilled v ->
  exists r data msg,
    fetch url [("Cache-Control", "no-cache")] = Fulfilled r
    /\ json r = Return data
    /\ get data "errorMessage" = Return msg
    /\ truthy msg = false
    /\ get data "GetDiningInfoResult" = Return v.
Proof.
  unfold FetchDining.
  destruct (fetch url [("Cache-Control", "no-cache")]) as [r |] eqn:F;
    [| discriminate].
  simpl. destruct (json r) as [data |] eqn:J; [| discriminate].
  simpl. destruct (get data "errorMessage") as [msg |] eqn:M; [| discriminate].
  destruct (truthy msg) eqn:T; [discriminate |].
  destruct (get data "GetDiningInfoResult") as [payload |] eqn:P; [| discriminate].
  intros [= <-]. exists r, data, msg. auto.
Qed.

(** C6, amended: for a response delivered by the transport whose body
    parses to [data], the fetch is rejected with the message when
    [data.errorMessage] is truthy, and fulfilled with the raw
    [data.GetDiningInfoResult] when it is missing or falsy. *)
Theorem FetchDining_settles (url : string)
    (fetch : string -> list (string * string) -> settled Response)
    (r : Response) (data msg payload : value) :
  fetch url [("Cache-Control", "no-cache")] = Fulfilled r ->
  json r = Return data ->
  get data "errorMessage" = Return msg ->
  get data "GetDiningInfoResult" = Return payload ->
  (truthy msg = true -> FetchDining url fetch = Rejected (Thrown msg))
  /\ (truthy msg = false -> FetchDining url fetch = Fulfilled payload)
  /\ (forall v, FetchDining url fetch = Fulfilled v ->
                truthy msg = false /\ v = payload).
Proof.
  intros F J M P.
  assert (E : FetchDining url fetch
              = if truthy msg then Rejected (Thrown msg) else Fulfilled payload).
  { unfold FetchDining. rewrite F. simpl. rewrite J. simpl. rewrite M.
    destruct (truthy msg); [reflexivity | now rewrite P]. }
  rewrite E. repeat split.
  - now intros ->.
  - now intros ->.
  - destruct (truthy msg); [discriminate | reflexivity].
  - destruct (truthy msg); [discriminate | congruence].
Qed.

Lemma FetchDining_settles_witness :
  (truthy (VString "Service unavailable") = true ->
   FetchDining "https://dining.example/api" (delivers failure_body)
   = Rejected (Thrown (VString "Service unavailable")))
  /\ (truthy (VString "Service unavailable") = false ->
      FetchDining "https://dining.example/api" (delivers failure_body)
      = Fulfilled VUndefined)
  /\ (forall v,
        FetchDining "https://dining.example/api" (delivers failure_body)
        = Fulfilled v ->
        truthy (VString "Service unavailable") = false /\ v = VUndefined).
Proof.
  apply (FetchDining_settles "https://dining.example/api" (delivers failure_body)
           {| status := 200; json := Return failure_body |} failure_body
           (VString "Service unavailable") VUndefined).
  - reflexivity.
  - reflexivity.
  - vm_compute. reflexivity.
  - vm_compute. reflexivity.
Defined.

(** C6 as stated fails: a delivered body that carries the error field,
    with an empty message, is not rejected; the fetch is fulfilled with
    the result. *)
Lemma FetchDining_empty_errorMessage_fulfils :
  carries "errorMessage" empty_error_body
  /\ FetchDining "https://dining.example/api" (delivers empty_error_body)
     = Fulfilled menu
  /\ ~ (exists reason,
          FetchDining "https://dining.example/api" (delivers empty_error_body)
          = Rejected reason).
Proof.
  assert (H : FetchDining "https://dining.example/api" (delivers empty_error_body)
              = Fulfilled menu) by (vm_compute; reflexivity).
  split; [| split].
  - vm_compute. eexists. reflexivity.
  - exact H.
  - intros [reason Hr]. rewrite H in Hr. discriminate.
Qed.

End ArrivalFetcher.

(** ** ReloadIndicatorController: the reload animation *)

Module ReloadIndicator.
Import General.

Lemma Qc_of_Z_0 : Qc_of_Z 0 = 0%Qc.
Proof. now apply Qc_is_canon. Qed.

(** A timing animation with a positive duration starts at the value the
    indicator has when it is started. *)
Lemma timing_start_begins_at_current (anim : AnimatedValue) (toVal : Qc)
    (duration : Z) (now : Z) :
  (0 < duration)%Z ->
  current (timing_start anim toVal duration linear now) now = current anim now.
Proof.
  intros Hd. unfold timing_start.
  destruct (Z.eqb_spec duration 0) as [-> | _]; [lia |].
  unfold current at 1. simpl.
  destruct (Z.leb_spec (now + duration) now) as [Hle | _]; [lia |].
  rewrite Z.sub_diag. unfold linear, Qcdiv.
  rewrite Qc_of_Z_0. ring.
Qed.

(** In between, the value is the linear interpolation. *)
Lemma timing_start_interpolates (anim : AnimatedValue) (toVal : Qc)
    (duration : Z) (now t : Z) :
  (t < now + duration)%Z -> duration <> 0%Z ->
  current (timing_start anim toVal duration linear now) t
  = (current anim now
     + Qc_of_Z (t - now) / Qc_of_Z duration * (toVal - current anim now))%Qc.
Proof.
  intros Ht Hd. unfold timing_start.
  destruct (Z.eqb_spec duration 0) as [-> | _]; [lia |].
  unfold current at 1. simpl.
  destruct (Z.leb_spec (now + duration) t) as [Hle | _]; [lia |].
  reflexivity.
Qed.

(** Once the duration has passed, the value is the end value. *)
Lemma timing_start_ends_at_toValue (anim : AnimatedValue) (toVal : Qc)
    (duration : Z) (now t : Z) :
  (now + duration <= t)%Z ->
  current (timing_start anim toVal duration linear now) t = toVal.
Proof.
  intros Ht. unfold timing_start.
  destruct (Z.eqb_spec duration 0) as [-> | _]; [reflexivity |].
  unfold current at 1. simpl.
  destruct (Z.leb_spec (now + duration) t) as [_ | Hlt]; [| lia].
  unfold linear. ring.
Qed.

(** C7, amended: [startReloadAnimation] starts its linear ramp toward 100
    over 60000 ms from the value the indicator has at that moment, and
    [startReloadAnimation2] does the same toward [toVal] over [duration];
    the ramp starts from 0 when the indicator is at 0. *)
Theorem startReloadAnimation_ramps_from_current (anim : AnimatedValue)
    (toVal : Qc) (duration : Z) (now : Z) :
  (0 < duration)%Z ->
  current (startReloadAnimation anim now) now = current anim now
  /\ (forall t, (now <= t < now + 60000)%Z ->
        current (startReloadAnimation anim now) t
        = (current anim now
           + Qc_of_Z (t - now) / Qc_of_Z 60000
             * (Qc_of_Z 100 - current anim now))%Qc)
  /\ (forall t, (now + 60000 <= t)%Z ->
        current (startReloadAnimation anim now) t = Qc_of_Z 100)
  /\ current (startReloadAnimation2 anim toVal duration now) now
     = current anim now
  /\ (forall t, (now <= t < now + duration)%Z ->
        current (startReloadAnimation2 anim toVal duration now) t
        = (current anim now
           + Qc_of_Z (t - now) / Qc_of_Z duration
             * (toVal - current anim now))%Qc)
  /\ (forall t, (now + duration <= t)%Z ->
        current (startReloadAnimation2 anim toVal duration now) t = toVal)
  /\ (current anim now = Qc_of_Z 0 ->
      current (startReloadAnimation anim now) now = Qc_of_Z 0
      /\ current (startReloadAnimation2 anim toVal duration now) now = Qc_of_Z 0).
Proof.
  intros Hd. unfold startReloadAnimation, startReloadAnimation2.
  repeat split.
  - apply timing_start_begins_at_current. lia.
  - intros t Ht. apply timing_start_interpolates; lia.
  - intros t Ht. now apply timing_start_ends_at_toValue.
  - now apply timing_start_begins_at_current.
  - intros t Ht. apply timing_start_interpolates; lia.
  - intros t Ht. now apply timing_start_ends_at_toValue.
  - rewrite timing_start_begins_at_current by lia. assumption.
  - rewrite timing_start_begins_at_current by lia. assumption.
Qed.

Lemma startReloadAnimation_ramps_from_current_witness :
  current (startReloadAnimation (idle (Qc_of_Z 40)) 0) 0
  = current (idle (Qc_of_Z 40)) 0.
Proof.
  destruct (startReloadAnimation_ramps_from_current
              (idle (Qc_of_Z 40)) (Qc_of_Z 100) 6000 0 ltac:(lia)) as [H _].
  exact H.
Defined.

(** C7 as stated fails: a second start half-way through a ramp goes on
    from 50, where the first ramp had brought the indicator, not from 0. *)
Lemma second_ramp_continues_from_first :
  current (startReloadAnimation (startReloadAnimation (idle (Qc_of_Z 0)) 0) 30000)
          30000
  = Qc_of_Z 50
  /\ current (startReloadAnimation (startReloadAnimation (idle (Qc_of_Z 0)) 0) 30000)
             30000
     <> Qc_of_Z 0.
Proof.
  split.
  - apply Qc_is_canon. vm_compute. reflexivity.
  - intros H. apply (f_equal this) in H. vm_compute in H. discriminate.
Qed.

(** C8: stopping sets the indicator to 0 at once and leaves no animation
    running, whatever the indicator was doing: from then on it shows 0. *)
Theorem stopReloadAnimation_snaps_to_zero (easeInOut : Qc -> Qc)
    (anim : AnimatedValue) (now t : Z) :
  current (stopReloadAnimation easeInOut anim now) t = Qc_of_Z 0
  /\ _value (stopReloadAnimation easeInOut anim now) = Qc_of_Z 0
  /\ _animation (stopReloadAnimation easeInOut anim now) = None.
Proof. repeat split. Qed.

End ReloadIndicator.

(** ** StopPollScheduler: the timer of the ShuttleStop view *)

Module StopPollScheduler.
Import ShuttleStop.

Lemma mount_state (id : string) (start : N) :
  componentDidMount (initial id start)
  = {| stopID := id; clock := start;
       intervals := [{| handler := TryUpdateStop; period := stopUpdateInterval;
                        due := start + stopUpdateInterval |}];
       analytics := ["View Mounted: Shuttle Stop"];
       dispatched := []; inFlight := false; outstanding := [] |}.
Proof. reflexivity. Qed.

Lemma div_succ_boundary (t : N) :
  (6000 * (t / 6000 + 1) <= t + 1 -> (t + 1) / 6000 = t / 6000 + 1)%N.
Proof.
  intros H. pose proof (N.div_mod t 6000 ltac:(lia)) as Hdm.
  pose proof (N.mod_lt t 6000 ltac:(lia)) as Hlt.
  symmetry. apply (N.div_unique _ _ _ 0); lia.
Qed.

Lemma div_succ_inside (t : N) :
  (t + 1 < 6000 * (t / 6000 + 1) -> (t + 1) / 6000 = t / 6000)%N.
Proof.
  intros H. pose proof (N.div_mod t 6000 ltac:(lia)) as Hdm.
  pose proof (N.mod_lt t 6000 ltac:(lia)) as Hlt.
  symmetry. apply (N.div_unique _ _ _ (t mod 6000 + 1)); lia.
Qed.

(** The state of a view [t] milliseconds after it was mounted, as long as
    no fetch has completed. *)
Lemma elapse_after_mount (id : string) (start t : N) :
  elapse t (componentDidMount (initial id start))
  = {| stopID := id; clock := start + t;
       intervals := [{| handler := TryUpdateStop; period := stopUpdateInterval;
                        due := start + stopUpdateInterval * (t / stopUpdateInterval + 1) |}];
       analytics := ["View Mounted: Shuttle Stop"];
       dispatched := polls id start (N.to_nat (t / stopUpdateInterval));
       inFlight := (0 <? t / stopUpdateInterval)%N;
       outstanding := if (0 <? t / stopUpdateInterval)%N then [id] else [] |}.
Proof.
  unfold elapse, stopUpdateInterval.
  induction t as [| t IH] using N.peano_ind.
  - rewrite mount_state. simpl. unfold stopUpdateInterval.
    now rewrite N.add_0_r.
  - rewrite N.iter_succ, IH. clear IH.
    unfold tick, due_handlers, rearm.
    cbn [clock intervals stopID analytics dispatched inFlight outstanding map
         List.filter due handler period].
    rewrite <- N.add_1_r.
    replace (start + t + 1)%N with (start + (t + 1))%N by lia.
    destruct (N.leb_spec (start + 6000 * (t / 6000 + 1)) (start + (t + 1)))
      as [Hle | Hgt].
    + assert (Hq : ((t + 1) / 6000 = t / 6000 + 1)%N)
        by (apply div_succ_boundary; lia).
      rewrite Hq.
      replace (N.to_nat (t / 6000 + 1)) with (S (N.to_nat (t / 6000))) by lia.
      assert (Hpos : (0 <? t / 6000 + 1)%N = true)
        by (apply (proj2 (N.ltb_lt _ _)), N.add_pos_r; reflexivity).
      rewrite Hpos.
      cbn. unfold tryUpdateStop, props_updateArrivals, updateArrivals. cbn.
      unfold stopUpdateInterval.
      replace (start + 6000 * (t / 6000 + 1) + 6000)%N
        with (start + 6000 * (t / 6000 + 1 + 1))%N by lia.
      replace (start + 6000 * N.of_nat (S (N.to_nat (t / 6000))))%N
        with (start + (t + 1))%N
        by (pose proof (N.div_mod t 6000 ltac:(lia));
            pose proof (N.mod_lt t 6000 ltac:(lia)); lia).
      now destruct (0 <? t / 6000)%N.
    + assert (Hq : ((t + 1) / 6000 = t / 6000)%N)
        by (apply div_succ_inside; lia).
      rewrite Hq. reflexivity.
Qed.

Lemma polls_length (id : string) (start : N) (n : nat) :
  length (polls id start n) = n.
Proof. induction n as [| n IH]; simpl; [reflexivity | now rewrite IH]. Qed.

(** The polls are those at the end of each of the first [n] periods. *)
Lemma polls_spec (id : string) (start : N) (n : nat) (time : N) (i : string) :
  In (time, i) (polls id start n)
  <-> i = id /\ exists k : nat,
        0 < k <= n /\ time = (start + stopUpdateInterval * N.of_nat k)%N.
Proof.
  induction n as [| n IH].
  - simpl. split; [contradiction | intros (_ & k & Hk & _); lia].
  - cbn [polls In]. rewrite IH. split.
    + intros [[= <- <-] | (-> & k & Hk & ->)].
      * split; [reflexivity |]. exists (S n). split; [lia | reflexivity].
      * split; [reflexivity |]. exists k. split; [lia | reflexivity].
    + intros (-> & k & Hk & ->).
      destruct (Nat.eq_dec k (S n)) as [-> | Hne].
      * now left.
      * right. split; [reflexivity |]. exists k. split; [lia | reflexivity].
Qed.

(** C2, amended: mounting the view arms one repeating timer of 6000 ms and
    issues no poll attempt itself; the attempts are those the timer makes,
    one at the end of every 6000 ms period, the first one a full period
    after the start. *)
Theorem startShuttleWatch_polls_each_period (id : string) (start t : N) :
  stopUpdateInterval = 6000%N
  /\ dispatched (componentDidMount (initial id start)) = []
  /\ intervals (componentDidMount (initial id start))
     = [{| handler := TryUpdateStop; period := 6000; due := start + 6000 |}]
  /\ dispatched (elapse t (componentDidMount (initial id start)))
     = polls id start (N.to_nat (t / 6000))
  /\ length (dispatched (elapse t (componentDidMount (initial id start))))
     = N.to_nat (t / 6000).
Proof.
  rewrite elapse_after_mount. cbn [dispatched].
  rewrite polls_length. repeat split.
Qed.

Lemma updateArrivals_in_step (id : string) (st : state) :
  in_step st -> in_step (updateArrivals id st).
Proof.
  unfold updateArrivals.
  intros [[Hf Ho] | [Hf Ho]]; rewrite Hf.
  - left. now split.
  - left. simpl. rewrite Ho. split; [reflexivity | now exists id].
Qed.

Lemma tryUpdateStop_in_step (st : state) :
  in_step st -> in_step (tryUpdateStop st).
Proof.
  intros H. unfold tryUpdateStop, props_updateArrivals.
  apply updateArrivals_in_step. exact H.
Qed.

Lemma tryUpdateStop_stopID (st : state) : stopID (tryUpdateStop st) = stopID st.
Proof.
  unfold tryUpdateStop, props_updateArrivals, updateArrivals. simpl.
  now destruct (inFlight st).
Qed.

Lemma fold_run_in_step (fns : list callback) (st : state) :
  in_step st ->
  in_step (fold_left (fun s fn => run fn s) fns st)
  /\ stopID (fold_left (fun s fn => run fn s) fns st) = stopID st.
Proof.
  revert st. induction fns as [| [] fns IH]; intros st H; simpl; [now split |].
  destruct (IH (tryUpdateStop st) (tryUpdateStop_in_step st H)) as [Hs Hid].
  split; [exact Hs | now rewrite Hid, tryUpdateStop_stopID].
Qed.

Lemma tick_in_step (st : state) :
  in_step st -> in_step (tick st) /\ stopID (tick st) = stopID st.
Proof.
  intros H. unfold tick.
  match goal with
  | |- in_step (fold_left _ ?fns ?st') /\ _ =>
      destruct (fold_run_in_step fns st' H) as [Hs Hid]
  end.
  split; [exact Hs | exact Hid].
Qed.

Lemma elapse_in_step (ms : N) (st : state) :
  in_step st -> in_step (elapse ms st) /\ stopID (elapse ms st) = stopID st.
Proof.
  intros H. unfold elapse. induction ms as [| ms [IH Hid]] using N.peano_ind.
  - now split.
  - rewrite N.iter_succ. destruct (tick_in_step _ IH) as [Hs Hid'].
    split; [exact Hs | now rewrite Hid'].
Qed.

Lemma settle_in_step (st : state) : in_step st -> in_step (settle st).
Proof.
  intros [[_ [id Ho]] | [_ Ho]]; right; simpl; now rewrite Ho.
Qed.

Lemma run_events_in_step (events : list event) (st : state) :
  in_step st ->
  in_step (run_events events st)
  /\ stopID (run_events events st) = stopID st.
Proof.
  unfold run_events. revert st.
  induction events as [| e events IH]; intros st H; simpl; [now split |].
  destruct e as [ms |]; simpl.
  - destruct (elapse_in_step ms st H) as [Hs Hid].
    destruct (IH _ Hs) as [Hs' Hid']. split; [exact Hs' | congruence].
  - destruct (IH _ (settle_in_step st H)) as [Hs' Hid'].
    split; [exact Hs' | exact Hid'].
Qed.

(** While no fetch completes, the ticks of [n] periods have fired and the
    fetch of the first of them is the only one outstanding. *)
Lemma unanswered_periods (id : string) (start n : N) :
  (0 < n)%N ->
  length (dispatched (elapse (6000 * n) (componentDidMount (initial id start))))
  = N.to_nat n
  /\ outstanding (elapse (6000 * n) (componentDidMount (initial id start)))
     = [id].
Proof.
  intros Hn. rewrite elapse_after_mount. unfold stopUpdateInterval.
  cbn [outstanding dispatched].
  replace (6000 * n / 6000)%N with n
    by (symmetry; rewrite N.mul_comm; apply N.div_mul; lia).
  rewrite polls_length, (proj2 (N.ltb_lt 0 n) Hn). now split.
Qed.

(** C1: whatever happens to a mounted view, time passing and fetches
    completing in any order, at most one fetch is outstanding, and one is
    outstanding exactly while [inFlight] is set.  A tick that fires while
    a fetch is in flight issues no fetch and queues none; a tick that
    finds none in flight issues one.  While the network does not answer,
    the [n] ticks of [n] periods leave a single fetch outstanding, the one
    of the first tick. *)
Theorem at_most_one_fetch_outstanding (id : string) (start : N)
    (events : list event) :
  let st := run_events events (componentDidMount (initial id start)) in
  length (outstanding st) <= 1
  /\ (inFlight st = true <-> outstanding st <> [])
  /\ (outstanding st <> [] ->
      outstanding (tryUpdateStop st) = outstanding st
      /\ inFlight (tryUpdateStop st) = true)
  /\ (outstanding st = [] ->
      outstanding (tryUpdateStop st) = [id]
      /\ inFlight (tryUpdateStop st) = true)
  /\ (forall n, (0 < n)%N ->
        length (dispatched
                  (elapse (6000 * n) (componentDidMount (initial id start))))
        = N.to_nat n
        /\ outstanding
             (elapse (6000 * n) (componentDidMount (initial id start)))
           = [id]).
Proof.
  intros st.
  assert (Hmount : in_step (componentDidMount (initial id start)))
    by (right; now split).
  destruct (run_events_in_step events _ Hmount) as [Hstep Hid].
  fold st in Hstep, Hid. change (stopID st = id) in Hid.
  repeat apply conj; [| | | | | apply unanswered_periods];
    unfold tryUpdateStop, props_updateArrivals, updateArrivals;
    cbn [inFlight];
    destruct Hstep as [[Hf [x Ho]] | [Hf Ho]]; rewrite ?Hf, ?Ho; simpl;
    try lia; try (split; congruence); try congruence.
Qed.

(** Two periods without an answer, then the answer, then two more
    periods: one fetch is outstanding, the one of the tick that followed
    the answer. *)
Example slow_network_no_backlog :
  outstanding (elapse 12000 (componentDidMount (initial "stop" 0))) = ["stop"]
  /\ outstanding (run_events [Elapse 12000; Settle]
                    (componentDidMount (initial "stop" 0))) = []
  /\ outstanding (run_events [Elapse 12000; Settle; Elapse 12000]
                    (componentDidMount (initial "stop" 0))) = ["stop"].
Proof. repeat split; vm_compute; reflexivity. Qed.

(** C2 as stated fails: no poll attempt has been made at the start, nor
    at any time before the first period is over. *)
Lemma no_poll_before_first_period :
  dispatched (componentDidMount (initial "stop" 0)) = []
  /\ dispatched (elapse 5999 (componentDidMount (initial "stop" 0))) = []
  /\ dispatched (elapse 6000 (componentDidMount (initial "stop" 0)))
     = [(6000%N, "stop")].
Proof. repeat split; vm_compute; reflexivity. Qed.

End StopPollScheduler.
(** ** More on [militaryToAMPM] *)

Module TimeOfDay.
Import JS General.

Lemma militaryToAMPM_time_of_day_witness :
  militaryToAMPM (two_digits 23 +:+ two_digits 30) = Return (toDisplay_spec 23 30)
  /\ militaryToAMPM (two_digits 23 +:+ ":" +:+ two_digits 30)
     = Return (toDisplay_spec 23 30).
Proof. apply (TimeFormat.militaryToAMPM_time_of_day 23 30); lia. Defined.

(** With three or four normalized characters the function returns. *)
Lemma militaryToAMPM_returns (time : string) :
  String.length (normalized time) = 3 \/ String.length (normalized time) = 4 ->
  exists r, militaryToAMPM time = Return r.
Proof.
  intros Hlen. unfold militaryToAMPM.
  destruct (truthy (VString time)); [| eauto].
  fold (normalized time).
  destruct (Nat.eqb_spec (String.length (normalized time)) 3) as [E3 | N3].
  - cbv zeta.
    destruct (strict_eq_string (VString (substring (normalized time) 1 3)) "00");
      cbn [get_length];
      match goal with |- context [if ?c then _ else _] => destruct c end; eauto.
  - destruct (Nat.eqb_spec (String.length (normalized time)) 4) as [E4 | N4];
      [| lia].
    cbv zeta.
    destruct (strict_eq_string (VString (substring (normalized time) 2 4)) "00");
      cbn [get_length];
      match goal with |- context [if ?c then _ else _] => destruct c end; eauto.
Qed.

(** The function throws exactly on the non-empty inputs whose normalized
    characters are neither three nor four; on every other input it
    returns a string. *)
Theorem militaryToAMPM_throws_iff (time : string) :
  (militaryToAMPM time = Throw TypeError
   <-> time <> ""
       /\ String.length (normalized time) <> 3
       /\ String.length (normalized time) <> 4)
  /\ ((exists r, militaryToAMPM time = Return r)
      <-> time = ""
          \/ String.length (normalized time) = 3
          \/ String.length (normalized time) = 4).
Proof.
  assert (Hthrow : time <> "" ->
            String.length (normalized time) <> 3 ->
            String.length (normalized time) <> 4 ->
            militaryToAMPM time = Throw TypeError)
    by apply TimeFormat.militaryToAMPM_other_length.
  assert (Hret : time = ""
                 \/ String.length (normalized time) = 3
                 \/ String.length (normalized time) = 4 ->
                 exists r, militaryToAMPM time = Return r).
  { intros [-> | H]; [exists ""; reflexivity | now apply militaryToAMPM_returns]. }
  split; split.
  - intros Ht. repeat split.
    + intros ->. discriminate.
    + intros H3. destruct Hret as [r Hr]; [auto | congruence].
    + intros H4. destruct Hret as [r Hr]; [auto | congruence].
  - intros (Hne & H3 & H4). now apply Hthrow.
  - intros [r Hr].
    destruct (string_dec time "") as [-> | Hne]; [now left |].
    destruct (Nat.eq_dec (String.length (normalized time)) 3); [auto |].
    destruct (Nat.eq_dec (String.length (normalized time)) 4); [auto |].
    rewrite Hthrow in Hr by assumption. discriminate.
  - exact Hret.
Qed.

Lemma substring_append (n : nat) (s rest : string) :
  n <= String.length s ->
  String.substring 0 n (s +:+ rest) = String.substring 0 n s.
Proof.
  revert s. induction n as [| n IH]; intros s Hn.
  - destruct s; [now destruct rest | reflexivity].
  - destruct s as [| c s]; [simpl in Hn; lia |].
    change (String.substring 0 (S n) (String c (s +:+ rest))
            = String.substring 0 (S n) (String c s)).
    simpl. rewrite IH; [reflexivity | simpl in Hn; lia].
Qed.

(** Only the first five characters are looked at: whatever follows them,
    seconds for one, changes nothing. *)
Theorem militaryToAMPM_first_five (time rest : string) :
  5 <= String.length time ->
  militaryToAMPM (time +:+ rest) = militaryToAMPM time.
Proof.
  intros Hlen.
  assert (Hne : time <> "") by (intros ->; simpl in Hlen; lia).
  assert (Hne' : time +:+ rest <> "").
  { intros H. apply (f_equal String.length) in H.
    rewrite Directions.length_append in H. simpl in H. lia. }
  unfold militaryToAMPM, substring.
  rewrite (TimeFormat.truthy_nonempty _ Hne), (TimeFormat.truthy_nonempty _ Hne').
  change (5 - 0) with 5.
  now rewrite substring_append.
Qed.

Lemma militaryToAMPM_first_five_witness :
  militaryToAMPM ("14:30" +:+ ":59") = militaryToAMPM "14:30".
Proof. apply (militaryToAMPM_first_five "14:30" ":59"). simpl. lia. Defined.

(** Whatever is returned for a non-empty input ends in am or in pm. *)
Theorem militaryToAMPM_suffix (time r : string) :
  time <> "" ->
  militaryToAMPM time = Return r ->
  endsWith "am" r = true \/ endsWith "pm" r = true.
Proof.
  intros Hne. unfold militaryToAMPM.
  rewrite (TimeFormat.truthy_nonempty _ Hne). fold (normalized time).
  repeat match goal with
         | |- context [if ?c then _ else _] => destruct c
         end;
    cbv zeta;
    repeat match goal with
           | |- context [if ?c then _ else _] => destruct c
           | |- context [match ?c with Return _ => _ | Throw _ => _ end] =>
               destruct c
           end;
    intros [= <-];
    rewrite <- ?Directions.append_assoc;
    first [left; apply Directions.endsWith_append
          | right; apply Directions.endsWith_append].
Qed.

Lemma militaryToAMPM_suffix_witness :
  endsWith "am" "9:05am" = true \/ endsWith "pm" "9:05am" = true.
Proof.
  apply (militaryToAMPM_suffix "09:05" "9:05am").
  - discriminate.
  - vm_compute. reflexivity.
Defined.

End TimeOfDay.

(** ** [openURL] and [gotoNavigationApp] *)

Module Navigation.
Import JS General.

Lemma app_one_neq {A : Type} (l : list A) (x : A) : l ++ [x] <> l.
Proof.
  intros H. apply (f_equal (@length A)) in H.
  rewrite length_app in H. simpl in H. lia.
Qed.

(** The URL is handed to [Linking.openURL] exactly when the platform
    reports that it can open it, and nothing else is ever opened; the log
    stays as it was exactly when both promises are fulfilled; a URL the
    platform cannot open leaves one line in the log. *)
Theorem openURL_outcomes (linking : Linking) (url : string) (fx : effects) :
  (opened (openURL linking url fx) = opened fx ++ [url]
   <-> exists supported,
         canOpenURL linking url = Fulfilled supported
         /\ truthy supported = true)
  /\ (opened (openURL linking url fx) <> opened fx ++ [url] ->
      opened (openURL linking url fx) = opened fx)
  /\ (logged (openURL linking url fx) = logged fx
      <-> exists supported result,
            canOpenURL linking url = Fulfilled supported
            /\ truthy supported = true
            /\ Linking_openURL linking url = Fulfilled result)
  /\ (forall supported,
        canOpenURL linking url = Fulfilled supported ->
        truthy supported = false ->
        logged (openURL linking url fx)
        = logged fx ++ ["ERR: openURL: Unable to handle url: " +:+ url])
  /\ (forall err,
        canOpenURL linking url = Rejected err ->
        logged (openURL linking url fx)
        = logged fx ++ ["ERR: openURL: " +:+ exception_text err]).
Proof.
  unfold openURL.
  destruct (canOpenURL linking url) as [supported | err] eqn:Ecan;
    [destruct (truthy supported) eqn:Et;
     [destruct (Linking_openURL linking url) as [result | err] eqn:Eopen |] |];
    simpl; repeat split; intros;
    repeat match goal with
           | H : exists _, _ |- _ => destruct H
           | H : _ /\ _ |- _ => destruct H
           | H : ?l ++ [?x] = ?l |- _ => exfalso; exact (app_one_neq l x H)
           | H : ?l = ?l ++ [?x] |- _ =>
               exfalso; symmetry in H; exact (app_one_neq l x H)
           end;
    try congruence; eauto 6.
Qed.

Lemma walk_url_ends_with_w (OS : string) (lat lon : value) :
  endsWith "&dirflg=w" (getDirectionsURL OS (VString "walk") lat lon) = true.
Proof.
  unfold getDirectionsURL.
  change (strict_eq_string (VString "walk") "walk") with true.
  destruct (platformIOS OS); cbv iota;
    rewrite <- !Directions.append_assoc; apply Directions.endsWith_append.
Qed.

(** [gotoNavigationApp] asks for walking directions whatever the device:
    it opens at most one URL, the one [getDirectionsURL] builds for the
    method walk, which ends in the walking flag. *)
Theorem gotoNavigationApp_walks (OS : string) (linking : Linking)
    (destinationLat destinationLon : value) (fx : effects) :
  let url := getDirectionsURL OS (VString "walk") destinationLat destinationLon in
  endsWith "&dirflg=w" url = true
  /\ endsWith "&dirflg=d" url = false
  /\ (opened (gotoNavigationApp OS linking destinationLat destinationLon fx)
      = opened fx
      \/ opened (gotoNavigationApp OS linking destinationLat destinationLon fx)
         = opened fx ++ [url]).
Proof.
  intros url. split; [apply walk_url_ends_with_w |]. split.
  - subst url. unfold getDirectionsURL.
    change (strict_eq_string (VString "walk") "walk") with true.
    destruct (platformIOS OS); cbv iota;
      rewrite <- !Directions.append_assoc;
      now apply Directions.endsWith_other.
  - unfold gotoNavigationApp. fold url. unfold openURL.
    destruct (canOpenURL linking url) as [supported | err]; [| now left].
    destruct (truthy supported); simpl; [| now left].
    destruct (Linking_openURL linking url); now right.
Qed.

End Navigation.

(** ** Numbers for display: [round], [getDistanceMilesStr], [getCurrentTimestamp] *)

Module Display.
Import JS General.

(** [round] gives the integer nearest to a number, a half going up, also
    below zero; an integer is left as it is. *)
Theorem round_nearest (q : Qc) (k : Z) :
  (exists z : Z,
      round (Finite q) = int z
      /\ (inject_Z z - (1 # 2) <= this q)%Q
      /\ (this q < inject_Z z + (1 # 2))%Q)
  /\ round (Finite (Qc_of_Z k + Q2Qc (1 # 2))%Qc) = int (k + 1)
  /\ round (int k) = int k.
Proof.
  unfold round, Math_round, int. repeat split.
  - exists (Qfloor (this q + (1 # 2))). split; [reflexivity |].
    pose proof (Qfloor_le (this q + (1 # 2))) as Hle.
    pose proof (Qlt_floor (this q + (1 # 2))) as Hlt.
    rewrite inject_Z_plus in Hlt. change (inject_Z 1) with 1%Q in Hlt.
    split; lra.
  - do 2 f_equal. rewrite <- (Qfloor_Z (k + 1)). apply Qfloor_comp.
    unfold Qcplus, Q2Qc, Qc_of_Z. cbn [this].
    rewrite !Qred_correct, inject_Z_plus. change (inject_Z 1) with 1%Q. lra.
  - do 2 f_equal. cbn [this Qc_of_Z].
    pose proof (Qfloor_le (inject_Z k + (1 # 2))) as Hle.
    pose proof (Qfloor_resp_le (inject_Z k) (inject_Z k + (1 # 2))
                  ltac:(lra)) as Hge.
    rewrite Qfloor_Z in Hge.
    assert (H1 : (inject_Z (Qfloor (inject_Z k + (1 # 2))) < inject_Z (k + 1))%Q)
      by (rewrite inject_Z_plus; change (inject_Z 1) with 1%Q; lra).
    rewrite <- Zlt_Qlt in H1. lia.
Qed.

(** The timestamp is the clock reading to the nearest second, a half
    second going up. *)
Theorem getCurrentTimestamp_nearest_second (now : N) :
  getCurrentTimestamp now = int ((Z.of_N now + 500) / 1000)
  /\ (1000 * ((Z.of_N now + 500) / 1000) - 500 <= Z.of_N now
      < 1000 * ((Z.of_N now + 500) / 1000) + 500)%Z.
Proof.
  split.
  - unfold getCurrentTimestamp, number_div, int.
    rewrite bool_decide_eq_false_2
      by (intros H; apply (f_equal this) in H; vm_compute in H; discriminate).
    unfold Math_round, int. do 2 f_equal.
    rewrite (Qfloor_comp _ ((2 * Z.of_N now + 1000) # 2000)).
    + unfold Qfloor.
      replace (2 * Z.of_N now + 1000)%Z with (2 * (Z.of_N now + 500))%Z by lia.
      change (Z.pos 2000) with (2 * 1000)%Z.
      now rewrite Z.div_mul_cancel_l.
    + unfold Qcdiv, Qcmult, Qcinv, Q2Qc, Qc_of_Z. cbn [this].
      rewrite !Qred_correct.
      unfold Qeq, Qplus, Qmult, Qinv, inject_Z. simpl. lia.
  - pose proof (Z.div_mod (Z.of_N now + 500) 1000 ltac:(lia)) as Hdm.
    pose proof (Z.mod_pos_bound (Z.of_N now + 500) 1000 ltac:(lia)) as Hb.
    lia.
Qed.

Lemma pretty_digit_length (d : Z) :
  (0 <= d < 10)%Z -> String.length (pretty d) = 1.
Proof.
  intros Hd.
  assert (d = 0 \/ d = 1 \/ d = 2 \/ d = 3 \/ d = 4 \/ d = 5 \/ d = 6
          \/ d = 7 \/ d = 8 \/ d = 9)%Z as H by lia.
  repeat (destruct H as [-> | H]; [reflexivity |]). now subst.
Qed.

(** For any distance below 10^21 miles the text is the distance rounded to
    the nearest tenth, a half going away from zero, with one digit after
    the point, followed by the unit: what is shown is within a twentieth
    of a mile of the distance. *)
Theorem getDistanceMilesStr_nearest_tenth (q : Qc) :
  (Qabs (this q) < inject_Z (10 ^ 21))%Q ->
  exists tenths : Z,
    (0 <= tenths)%Z
    /\ getDistanceMilesStr (Finite q)
       = match Qccompare q 0%Qc with Lt => "-" | _ => "" end
         +:+ pretty (tenths / 10)%Z +:+ "." +:+ pretty (tenths mod 10)%Z
         +:+ " mi"
    /\ (Qabs (inject_Z tenths / inject_Z 10 - Qabs (this q)) <= 1 # 20)%Q.
Proof.
  intros Hsmall.
  exists (Qfloor (Qabs (this q) * inject_Z 10 + (1 # 2))).
  pose proof (Qabs_nonneg (this q)) as Hx.
  pose proof (Qfloor_le (Qabs (this q) * inject_Z 10 + (1 # 2))) as Hle.
  pose proof (Qlt_floor (Qabs (this q) * inject_Z 10 + (1 # 2))) as Hlt.
  rewrite inject_Z_plus in Hlt. change (inject_Z 1) with 1%Q in Hlt.
  change (inject_Z 10) with (10 # 1)%Q in *.
  set (tenths := Qfloor (Qabs (this q) * (10 # 1) + (1 # 2))) in *.
  assert (Hnonneg : (0 <= tenths)%Z).
  { assert (H : (inject_Z (-1) < inject_Z tenths)%Q)
      by (change (inject_Z (-1)) with (-1 # 1)%Q; lra).
    rewrite <- Zlt_Qlt in H. lia. }
  split; [assumption |]. split.
  - unfold getDistanceMilesStr, toFixed.
    destruct (Qle_bool (inject_Z (10 ^ 21)) (Qabs (this q))) eqn:Ebig.
    { apply Qle_bool_iff in Ebig. lra. }
    change (10 ^ Z.of_nat 1)%Z with 10%Z.
    change (inject_Z 10) with (10 # 1)%Q. fold tenths.
    rewrite (pretty_digit_length (tenths mod 10))
      by (apply Z.mod_pos_bound; lia).
    change (pad_zeros (1 - 1) (pretty (tenths mod 10)%Z))
      with (pretty (tenths mod 10)%Z).
    now rewrite !Directions.append_assoc.
  - apply Qabs_Qle_condition. unfold Qdiv.
    change (/ (10 # 1))%Q with (1 # 10)%Q. split; lra.
Qed.

Lemma getDistanceMilesStr_nearest_tenth_witness :
  exists tenths : Z,
    (0 <= tenths)%Z
    /\ getDistanceMilesStr (Finite (Q2Qc (1 # 4)))
       = match Qccompare (Q2Qc (1 # 4)) 0%Qc with Lt => "-" | _ => "" end
         +:+ pretty (tenths / 10)%Z +:+ "." +:+ pretty (tenths mod 10)%Z
         +:+ " mi"
    /\ (Qabs (inject_Z tenths / inject_Z 10 - Qabs (this (Q2Qc (1 # 4))))
        <= 1 # 20)%Q.
Proof.
  apply (getDistanceMilesStr_nearest_tenth (Q2Qc (1 # 4))).
  vm_compute. reflexivity.
Defined.

Example getDistanceMilesStr_quarter :
  getDistanceMilesStr (Finite (Q2Qc (1 # 4))) = "0.3 mi".
Proof. vm_compute. reflexivity. Qed.

End Display.

(** ** Random colours: [getRandomColor], [getRandomColorArray] *)

Module RandomColors.
Import JS General.

Lemma chars_append (a b : string) :
  list_ascii_of_string (a +:+ b)
  = list_ascii_of_string a ++ list_ascii_of_string b.
Proof.
  induction a as [| c a IH]; [reflexivity |].
  change (c :: list_ascii_of_string (a +:+ b)
          = c :: (list_ascii_of_string a ++ list_ascii_of_string b)).
  now rewrite IH.
Qed.

Lemma length_string_of_list (l : list ascii) :
  String.length (string_of_list_ascii l) = length l.
Proof. induction l as [| c l IH]; simpl; [reflexivity | now rewrite IH]. Qed.

Lemma upper_lower_hex (c : ascii) :
  lower_hex c = true -> upper_hex (upper c) = true.
Proof.
  destruct c as [[] [] [] [] [] [] [] []]; vm_compute; congruence.
Qed.

(** The six characters after the hash: the end of the six zeros followed
    by the raised digits. *)
Lemma getRandomColor_chars (random : string) :
  exists digits : list ascii,
    getRandomColor random = String "#" (string_of_list_ascii digits)
    /\ length digits = 6
    /\ forall P : ascii -> Prop,
         P "0"%char ->
         Forall P (map upper (list_ascii_of_string (slice random 2 (Some 8%Z)))) ->
         Forall P digits.
Proof.
  unfold getRandomColor.
  set (u := toUpperCase (slice random 2 (Some 8%Z))).
  set (padded := list_ascii_of_string ("000000" +:+ u)).
  assert (Hpadded : padded = list_ascii_of_string "000000" ++ list_ascii_of_string u)
    by apply chars_append.
  assert (Hlen : length padded = 6 + length (list_ascii_of_string u))
    by (rewrite Hpadded, length_app; reflexivity).
  exists (drop (length (list_ascii_of_string u)) padded).
  split; [| split].
  - change ("#" +:+ slice ("000000" +:+ u) (-6) None)
      with (String "#" (slice ("000000" +:+ u) (-6) None)).
    f_equal. unfold slice. fold padded. cbv zeta.
    change (-6 <? 0)%Z with true. cbv iota. rewrite Hlen.
    replace (Z.to_nat (Z.max (Z.of_nat (6 + length (list_ascii_of_string u)) + -6) 0))
      with (length (list_ascii_of_string u)) by lia.
    f_equal. apply take_ge. rewrite length_drop. lia.
  - rewrite length_drop. lia.
  - intros P H0 Hu. apply Forall_drop. rewrite Hpadded.
    apply Forall_app. split.
    + repeat constructor; exact H0.
    + subst u. unfold toUpperCase.
      now rewrite list_ascii_of_string_of_list_ascii.
Qed.

Lemma slice_from_2_chars (random : string) (P : ascii -> Prop) :
  Forall P (drop 2 (list_ascii_of_string random)) ->
  Forall P (list_ascii_of_string (slice random 2 (Some 8%Z))).
Proof.
  intros H. unfold slice. rewrite list_ascii_of_string_of_list_ascii.
  cbv zeta. change (2 <? 0)%Z with false. change (8 <? 0)%Z with false.
  cbv iota. apply Forall_take.
  destruct (le_lt_dec 2 (length (list_ascii_of_string random))) as [Hge | Hlt].
  - replace (Z.to_nat (Z.min 2 (Z.of_nat (length (list_ascii_of_string random)))))
      with 2 by lia.
    exact H.
  - rewrite drop_ge by lia. constructor.
Qed.

Lemma hex_fraction_digits (random : string) :
  hex_fraction random = true ->
  Forall (fun c => lower_hex c = true) (drop 2 (list_ascii_of_string random)).
Proof.
  unfold hex_fraction. intros H.
  destruct random as [| a [| b [| c rest]]]; try discriminate;
    try (simpl; constructor; fail).
  assert (Hall : forallb lower_hex (c :: list_ascii_of_string rest) = true).
    { destruct a as [[] [] [] [] [] [] [] []]; try discriminate;
        destruct b as [[] [] [] [] [] [] [] []]; try discriminate; exact H. }
  apply Stdlib.Lists.List.Forall_forall. intros x Hx.
  rewrite forallb_forall in Hall. now apply Hall.
Qed.

Lemma hex_fraction_color (random : string) :
  hex_fraction random = true ->
  String.length (getRandomColor random) = 7
  /\ hex_color (getRandomColor random) = true.
Proof.
  intros Hdraw.
  destruct (getRandomColor_chars random) as (digits & -> & Hlen & Hall).
  split; [simpl; now rewrite length_string_of_list, Hlen |].
  unfold hex_color.
  rewrite length_string_of_list, Hlen, list_ascii_of_string_of_list_ascii.
  apply forallb_forall. apply Stdlib.Lists.List.Forall_forall.
  apply (Hall (fun c => upper_hex c = true)); [reflexivity |].
  apply Forall_map. cbn beta.
  eapply Forall_impl; [| intros c Hc; apply upper_lower_hex; exact Hc].
  apply slice_from_2_chars. now apply hex_fraction_digits.
Qed.

(** The characters [slice(2, 8)] keeps: the six that follow the first
    two, or as many of them as there are. *)
Lemma slice_2_8 (random : string) :
  slice random 2 (Some 8%Z)
  = string_of_list_ascii (take 6 (drop 2 (list_ascii_of_string random))).
Proof.
  unfold slice. cbv zeta.
  change (2 <? 0)%Z with false. change (8 <? 0)%Z with false. cbv iota.
  set (chars := list_ascii_of_string random). f_equal.
  destruct (le_lt_dec 8 (length chars)) as [H8 | H8].
  - replace (Z.to_nat (Z.min 8 (Z.of_nat (length chars))
                       - Z.min 2 (Z.of_nat (length chars)))) with 6 by lia.
    now replace (Z.to_nat (Z.min 2 (Z.of_nat (length chars)))) with 2 by lia.
  - destruct (le_lt_dec 2 (length chars)) as [H2 | H2].
    + replace (Z.to_nat (Z.min 2 (Z.of_nat (length chars)))) with 2 by lia.
      rewrite !take_ge; [reflexivity | |]; rewrite length_drop; lia.
    + rewrite (drop_ge chars 2) by lia.
      rewrite drop_ge by lia. now rewrite !take_nil.
Qed.

(** The colour, digit by digit: the hash, then zeros in front of the
    digits kept from the draw, raised, to make six in all. *)
Lemma getRandomColor_digits (random : string) :
  getRandomColor random
  = String "#"
      (string_of_list_ascii
         (repeat "0"%char
            (6 - length (take 6 (drop 2 (list_ascii_of_string random))))
          ++ map upper (take 6 (drop 2 (list_ascii_of_string random))))).
Proof.
  unfold getRandomColor. rewrite slice_2_8.
  set (kept := take 6 (drop 2 (list_ascii_of_string random))).
  assert (Hk : length kept <= 6) by (subst kept; rewrite length_take; lia).
  unfold toUpperCase. rewrite list_ascii_of_string_of_list_ascii.
  change ("#" +:+ ?x) with (String "#" x). f_equal.
  unfold slice. cbv zeta. change (-6 <? 0)%Z with true. cbv iota.
  rewrite chars_append, list_ascii_of_string_of_list_ascii.
  change (list_ascii_of_string "000000") with (repeat "0"%char 6).
  rewrite length_app, length_map, repeat_length.
  replace (Z.to_nat (Z.max (Z.of_nat (6 + length kept) + -6) 0))
    with (length kept) by lia.
  f_equal.
  rewrite take_ge by (rewrite length_drop, length_app, length_map, repeat_length; lia).
  rewrite drop_app_le by (rewrite repeat_length; lia).
  f_equal.
  remember (length kept) as k eqn:Ek. clear Ek.
  destruct k as [| [| [| [| [| [| [| k]]]]]]]; try reflexivity; lia.
Qed.

(** For the text of a draw, [0] or [0.] and hexadecimal digits, however
    few or many, the colour is the hash followed by six digits: the
    first six digits of the fraction, those after [0.], raised to upper
    case and in their order, any further digit being dropped; when the
    fraction has fewer than six digits, zeros are put in front of them to
    make six.  So the colour is seven characters long and is a hash and
    six hexadecimal digits in upper case. *)
Theorem getRandomColor_hex_color (random : string) :
  hex_fraction random = true ->
  let kept := take 6 (drop 2 (list_ascii_of_string random)) in
  getRandomColor random
  = String "#"
      (string_of_list_ascii
         (repeat "0"%char (6 - length kept) ++ map upper kept))
  /\ String.length (getRandomColor random) = 7
  /\ hex_color (getRandomColor random) = true.
Proof.
  intros Hdraw kept. split; [apply getRandomColor_digits |].
  now apply hex_fraction_color.
Qed.

Lemma getRandomColor_hex_color_witness :
  getRandomColor "0.5" = "#000005"
  /\ String.length (getRandomColor "0.5") = 7
  /\ hex_color (getRandomColor "0.5") = true.
Proof. apply (getRandomColor_hex_color "0.5"). reflexivity. Defined.

(** A draw of few digits is filled with zeros in front, one of many is
    cut after the sixth. *)
Example getRandomColor_short_and_long :
  getRandomColor "0.5" = "#000005"
  /\ getRandomColor "0.a3f5c29b1" = "#A3F5C2"
  /\ getRandomColor "0" = "#000000".
Proof. repeat split. Qed.

(** The colour is seven characters long for any text at all. *)
Lemma getRandomColor_length (random : string) :
  String.length (getRandomColor random) = 7.
Proof.
  destruct (getRandomColor_chars random) as (digits & -> & Hlen & _).
  simpl. now rewrite length_string_of_list, Hlen.
Qed.

Lemma push_colors_spec (draw : nat -> string) (n i : nat) (acc : list string) :
  push_colors draw n i acc
  = acc ++ map (fun j => getRandomColor (draw j)) (seq i n).
Proof.
  revert i acc. induction n as [| n IH]; intros i acc; simpl.
  - now rewrite app_nil_r.
  - rewrite IH, <- app_assoc. reflexivity.
Qed.

(** [getRandomColorArray] gives as many colours as asked for, none for a
    length of zero or below; the [i]-th colour comes from the [i]-th
    draw, and each one is a well-formed colour code. *)
Theorem getRandomColorArray_colors (draw : nat -> string) (length : Z) :
  (forall i, hex_fraction (draw i) = true) ->
  List.length (getRandomColorArray draw length) = Z.to_nat length
  /\ (forall i, i < Z.to_nat length ->
        nth_error (getRandomColorArray draw length) i
        = Some (getRandomColor (draw i)))
  /\ Forall (fun color => hex_color color = true)
            (getRandomColorArray draw length).
Proof.
  intros Hdraw. unfold getRandomColorArray.
  rewrite push_colors_spec. simpl app. repeat split.
  - now rewrite length_map, length_seq.
  - intros i Hi.
    rewrite nth_error_map, nth_error_seq.
    destruct (Nat.ltb_spec i (Z.to_nat length)); [reflexivity | lia].
  - apply Forall_map. apply Stdlib.Lists.List.Forall_forall. intros i _.
    now apply hex_fraction_color.
Qed.

Lemma getRandomColorArray_colors_witness :
  List.length (getRandomColorArray (fun _ => "0.a3f5c29b1") 3) = Z.to_nat 3
  /\ (forall i, i < Z.to_nat 3 ->
        nth_error (getRandomColorArray (fun _ => "0.a3f5c29b1") 3) i
        = Some (getRandomColor "0.a3f5c29b1"))
  /\ Forall (fun color => hex_color color = true)
            (getRandomColorArray (fun _ => "0.a3f5c29b1") 3).
Proof.
  apply (getRandomColorArray_colors (fun _ => "0.a3f5c29b1") 3).
  intros i. reflexivity.
Defined.

End RandomColors.

(** ** More on the comparators: [dynamicSort], [sortNearbyMarkers] *)

Module Comparators.
Import JS General.




Lemma ltb_asym (s t : string) : String.ltb s t = true -> String.ltb t s = false.
Proof.
  unfold String.ltb. rewrite (String.compare_antisym s t).
  now destruct (String.compare t s).
Qed.

Lemma lt_asym (x y : value) : lt x y = true -> lt y x = false.
Proof.
  unfold lt.
  destruct (ToPrimitive x), (ToPrimitive y);
    first [apply ltb_asym | apply DistanceRanker.number_lt_asym].
Qed.



(** Swapping the arguments negates the result, whatever the objects
    hold. *)
Theorem dynamicSort_antisymmetric (property : string) (a b : gmap string value) :
  dynamicSort property a b = (- dynamicSort property b a)%Z.
Proof.
  unfold dynamicSort, gt.
  destruct (lt (field a property) (field b property)) eqn:Eab.
  - now rewrite (lt_asym _ _ Eab).
  - now destruct (lt (field b property) (field a property)).
Qed.

(** On a property that holds strings the comparator is the comparison of
    the strings by code units. *)
Theorem dynamicSort_strings (property : string) (a b : gmap string value)
    (s t : string) :
  field a property = VString s ->
  field b property = VString t ->
  dynamicSort property a b
  = match String.compare s t with Lt => (-1)%Z | Eq => 0%Z | Gt => 1%Z end.
Proof.
  intros Ha Hb. unfold dynamicSort, gt, lt. rewrite Ha, Hb. simpl.
  unfold String.ltb. rewrite (String.compare_antisym t s).
  now destruct (String.compare s t).
Qed.

Lemma dynamicSort_strings_witness :
  dynamicSort "name" far near1
  = match String.compare "far" "near1" with
    | Lt => (-1)%Z | Eq => 0%Z | Gt => 1%Z
    end.
Proof.
  apply (dynamicSort_strings "name" far near1 "far" "near1");
    vm_compute; reflexivity.
Defined.

Lemma dynamicSort_numbers (property : string) (a b : gmap string value)
    (m n : number) :
  field a property = VNumber m -> field b property = VNumber n ->
  dynamicSort property a b
  = if number_lt m n then (-1)%Z else if number_lt n m then 1%Z else 0%Z.
Proof. unfold dynamicSort. intros -> ->. reflexivity. Qed.

Lemma dynamicSort_le (property : string) (a b : gmap string value) :
  numeric_property property a -> numeric_property property b ->
  (dynamicSort property a b <= 0)%Z -> property_le property a b.
Proof.
  intros (m & Ha & Hm) (n & Hb & Hn).
  rewrite (dynamicSort_numbers property a b m n Ha Hb).
  unfold property_le. rewrite Ha, Hb. simpl.
  destruct (number_lt m n) eqn:Emn; intros Hle.
  - now apply DistanceRanker.number_lt_le.
  - destruct (number_lt n m) eqn:Enm; [lia |].
    now apply DistanceRanker.number_le_not_lt.
Qed.

Lemma dynamicSort_gt (property : string) (a b : gmap string value) :
  numeric_property property a -> numeric_property property b ->
  (0 < dynamicSort property a b)%Z -> property_le property b a.
Proof.
  intros (m & Ha & Hm) (n & Hb & Hn).
  rewrite (dynamicSort_numbers property a b m n Ha Hb).
  unfold property_le. rewrite Ha, Hb. simpl.
  destruct (number_lt m n) eqn:Emn; [lia |].
  destruct (number_lt n m) eqn:Enm; [| lia].
  intros _. now apply DistanceRanker.number_lt_le.
Qed.

Lemma dynamicSort_same (property : string) (d : number)
    (a b : gmap string value) :
  property_is property d a = true -> property_is property d b = true ->
  (dynamicSort property a b <= 0)%Z.
Proof.
  unfold property_is. intros Ha Hb.
  destruct (field a property) as [| | | m | | |] eqn:Da; try discriminate.
  destruct (field b property) as [| | | n | | |] eqn:Db; try discriminate.
  apply bool_decide_eq_true in Ha, Hb. subst m n.
  rewrite (dynamicSort_numbers property a b d d Da Db).
  rewrite DistanceRanker.number_lt_irrefl. lia.
Qed.

(** Sorting objects on a property that holds numbers gives a permutation
    in ascending order of that property, in which the objects with one
    and the same number keep the order they had. *)
Theorem sort_dynamicSort (property : string) (l : list (gmap string value)) :
  Forall (numeric_property property) l ->
  Permutation l (sort (dynamicSort property) l)
  /\ StronglySorted (property_le property) (sort (dynamicSort property) l)
  /\ forall d, List.filter (property_is property d) (sort (dynamicSort property) l)
               = List.filter (property_is property d) l.
Proof.
  intros Hnum. repeat split.
  - apply SortFacts.sort_perm.
  - apply (SortFacts.sort_sorted (dynamicSort property)
             (numeric_property property) (property_le property)).
    + intros x y z _ _ _. unfold property_le.
      apply DistanceRanker.number_le_trans.
    + apply dynamicSort_le.
    + apply dynamicSort_gt.
    + assumption.
  - intros d. apply SortFacts.sort_stable. apply dynamicSort_same.
Qed.

Lemma sort_dynamicSort_witness :
  Permutation [far; near1; near2] (sort (dynamicSort "distance") [far; near1; near2])
  /\ StronglySorted (property_le "distance")
       (sort (dynamicSort "distance") [far; near1; near2])
  /\ forall d,
       List.filter (property_is "distance" d)
         (sort (dynamicSort "distance") [far; near1; near2])
       = List.filter (property_is "distance" d) [far; near1; near2].
Proof.
  apply (sort_dynamicSort "distance" [far; near1; near2]).
  repeat constructor.
  - exists (int 3). split; [vm_compute; reflexivity | discriminate].
  - exists (int 1). split; [vm_compute; reflexivity | discriminate].
  - exists (int 1). split; [vm_compute; reflexivity | discriminate].
Defined.

(** Ranking entities that are already in ascending order of distance
    gives them back unchanged; hence ranking twice is ranking once. *)
Theorem rank_idempotent (entities : list (gmap string value)) :
  Forall numeric_distance entities ->
  (StronglySorted distance_le entities -> rank entities = entities)
  /\ rank (rank entities) = rank entities.
Proof.
  intros Hnum.
  assert (Hsorted : forall l, Forall numeric_distance l ->
                      StronglySorted distance_le l -> rank l = l).
  { intros l Hl Hs. symmetry. now apply DistanceRanker.rank_unique. }
  split; [now apply Hsorted |].
  destruct (DistanceRanker.rank_sorted_stable_facts entities Hnum)
    as (Hperm & Hs & _).
  apply Hsorted; [| assumption].
  now rewrite <- Hperm.
Qed.

Lemma rank_idempotent_witness :
  (StronglySorted distance_le [far; near1; near2] ->
   rank [far; near1; near2] = [far; near1; near2])
  /\ rank (rank [far; near1; near2]) = rank [far; near1; near2].
Proof.
  apply (rank_idempotent [far; near1; near2]).
  repeat constructor.
  - exists (int 3). split; [vm_compute; reflexivity | discriminate].
  - exists (int 1). split; [vm_compute; reflexivity | discriminate].
  - exists (int 1). split; [vm_compute; reflexivity | discriminate].
Defined.

End Comparators.

(** ** More on [FetchDining] *)

Module Fetching.
Import JS DiningService.

Lemma FetchDining_transport_failure_witness :
  FetchDining "https://dining.example/api" network_down = Rejected TypeError.
Proof.
  apply (ArrivalFetcher.FetchDining_transport_failure
           "https://dining.example/api" network_down TypeError).
  reflexivity.
Defined.

(** A delivered response without usable data rejects the fetch: with
    the parser's error when the body is not JSON, with a TypeError when
    the body is the JSON null. *)
Theorem FetchDining_unusable_body (url : string)
    (fetch : string -> list (string * string) -> settled Response)
    (r : Response) :
  fetch url [("Cache-Control", "no-cache")] = Fulfilled r ->
  (forall e, json r = Throw e -> FetchDining url fetch = Rejected e)
  /\ (json r = Return VNull -> FetchDining url fetch = Rejected TypeError).
Proof.
  intros F. unfold FetchDining. rewrite F. simpl.
  split; [intros e J | intros J]; now rewrite J.
Qed.

Lemma FetchDining_unusable_body_witness :
  (forall e, json {| status := 200; json := Return VNull |} = Throw e ->
             FetchDining "https://dining.example/api" (answers 200 VNull)
             = Rejected e)
  /\ (json {| status := 200; json := Return VNull |} = Return VNull ->
      FetchDining "https://dining.example/api" (answers 200 VNull)
      = Rejected TypeError).
Proof.
  apply (FetchDining_unusable_body "https://dining.example/api"
           (answers 200 VNull) {| status := 200; json := Return VNull |}).
  reflexivity.
Defined.

Lemma FetchDining_fulfilled_inv_witness :
  exists r data msg,
    delivers empty_error_body "https://dining.example/api"
      [("Cache-Control", "no-cache")] = Fulfilled r
    /\ json r = Return data
    /\ get data "errorMessage" = Return msg
    /\ truthy msg = false
    /\ get data "GetDiningInfoResult" = Return menu.
Proof.
  apply (ArrivalFetcher.FetchDining_fulfilled_inv
           "https://dining.example/api" (delivers empty_error_body) menu).
  vm_compute. reflexivity.
Defined.

(** The status of the response plays no part: two delivered responses
    with the same body settle the fetch the same way, an error status
    with a body free of [errorMessage] included. *)
Theorem FetchDining_ignores_status (url : string)
    (fetch1 fetch2 : string -> list (string * string) -> settled Response)
    (r1 r2 : Response) :
  fetch1 url [("Cache-Control", "no-cache")] = Fulfilled r1 ->
  fetch2 url [("Cache-Control", "no-cache")] = Fulfilled r2 ->
  json r1 = json r2 ->
  FetchDining url fetch1 = FetchDining url fetch2.
Proof.
  intros F1 F2 J. unfold FetchDining. rewrite F1, F2. simpl. now rewrite J.
Qed.

Lemma FetchDining_ignores_status_witness :
  FetchDining "https://dining.example/api" (answers 200 empty_error_body)
  = FetchDining "https://dining.example/api" (answers 500 empty_error_body).
Proof.
  apply (FetchDining_ignores_status "https://dining.example/api"
           (answers 200 empty_error_body) (answers 500 empty_error_body)
           {| status := 200; json := Return empty_error_body |}
           {| status := 500; json := Return empty_error_body |});
    reflexivity.
Defined.

Example FetchDining_error_status_fulfils :
  FetchDining "https://dining.example/api" (answers 500 empty_error_body)
  = Fulfilled menu.
Proof. vm_compute. reflexivity. Qed.

End Fetching.

(** ** The reload animation over a cycle *)

Module ReloadCycle.
Import General.

Lemma Qc_of_Z_nonzero (z : Z) : z <> 0%Z -> Qc_of_Z z <> 0%Qc.
Proof.
  intros Hz H. rewrite <- Z2Qc_inj_0 in H. now apply Z2Qc_inj in H.
Qed.

(** A ramp with a positive duration, at any time: the start value plus
    the share done of the way to the end value. *)
Lemma current_ramp (anim : AnimatedValue) (toVal : Qc) (duration now t : Z) :
  (0 < duration)%Z ->
  current (timing_start anim toVal duration linear now) t
  = (current anim now + progress now duration t * (toVal - current anim now))%Qc.
Proof.
  intros Hd. unfold timing_start.
  destruct (Z.eqb_spec duration 0) as [-> | _]; [lia |].
  unfold current at 1, progress, linear. simpl.
  now destruct (now + duration <=? t)%Z.
Qed.

Lemma progress_bounds (now duration t : Z) :
  (0 < duration)%Z -> (now <= t)%Z ->
  (0 <= progress now duration t)%Qc /\ (progress now duration t <= 1)%Qc.
Proof.
  intros Hd Ht. unfold progress.
  destruct (Z.leb_spec (now + duration) t) as [Hend | Hin].
  - split; [| apply Qcle_refl]. rewrite <- Z2Qc_inj_0, <- Z2Qc_inj_1.
    now apply (proj1 (Z2Qc_inj_le _ _)).
  - assert (Hc : (0 < Qc_of_Z duration)%Qc)
      by (rewrite <- Z2Qc_inj_0; apply (proj1 (Z2Qc_inj_lt _ _)); lia).
    split.
    + apply (Qcmult_le_mono_pos_r _ _ (Qc_of_Z duration) Hc).
      replace (Qc_of_Z (t - now) / Qc_of_Z duration * Qc_of_Z duration)%Qc
        with (Qc_of_Z (t - now))
        by (field; apply Qc_of_Z_nonzero; lia).
      rewrite Qcmult_0_l, <- Z2Qc_inj_0. apply (proj1 (Z2Qc_inj_le _ _)). lia.
    + apply (Qcmult_le_mono_pos_r _ _ (Qc_of_Z duration) Hc).
      replace (Qc_of_Z (t - now) / Qc_of_Z duration * Qc_of_Z duration)%Qc
        with (Qc_of_Z (t - now))
        by (field; apply Qc_of_Z_nonzero; lia).
      rewrite Qcmult_1_l. apply (proj1 (Z2Qc_inj_le _ _)). lia.
Qed.

Lemma progress_monotone (now duration t1 t2 : Z) :
  (0 < duration)%Z -> (now <= t1 <= t2)%Z ->
  (progress now duration t1 <= progress now duration t2)%Qc.
Proof.
  intros Hd Ht.
  destruct (Z.leb_spec (now + duration) t2) as [Hend | Hin].
  - replace (progress now duration t2) with 1%Qc
      by (unfold progress; destruct (Z.leb_spec (now + duration) t2);
          [reflexivity | lia]).
    apply progress_bounds; lia.
  - unfold progress.
    destruct (Z.leb_spec (now + duration) t1); [lia |].
    destruct (Z.leb_spec (now + duration) t2); [lia |].
    assert (Hc : (0 < Qc_of_Z duration)%Qc)
      by (rewrite <- Z2Qc_inj_0; apply (proj1 (Z2Qc_inj_lt _ _)); lia).
    apply (Qcmult_le_mono_pos_r _ _ (Qc_of_Z duration) Hc).
    replace (Qc_of_Z (t1 - now) / Qc_of_Z duration * Qc_of_Z duration)%Qc
      with (Qc_of_Z (t1 - now))
      by (field; apply Qc_of_Z_nonzero; lia).
    replace (Qc_of_Z (t2 - now) / Qc_of_Z duration * Qc_of_Z duration)%Qc
      with (Qc_of_Z (t2 - now))
      by (field; apply Qc_of_Z_nonzero; lia).
    apply (proj1 (Z2Qc_inj_le _ _)). lia.
Qed.

(** Once started with the indicator at or below 100, the animation never
    goes back and never passes 100: from the start on the value only
    grows, from the value it had up to 100. *)
Theorem startReloadAnimation_monotone (anim : AnimatedValue) (now t1 t2 : Z) :
  (current anim now <= Qc_of_Z 100)%Qc ->
  (now <= t1 <= t2)%Z ->
  (current anim now <= current (startReloadAnimation anim now) t1)%Qc
  /\ (current (startReloadAnimation anim now) t1
      <= current (startReloadAnimation anim now) t2)%Qc
  /\ (current (startReloadAnimation anim now) t2 <= Qc_of_Z 100)%Qc.
Proof.
  intros Hv Ht. unfold startReloadAnimation.
  rewrite !current_ramp by lia.
  set (v := current anim now) in *.
  assert (Hd : (0 <= Qc_of_Z 100 - v)%Qc).
  { apply Qcle_minus_iff in Hv. exact Hv. }
  destruct (progress_bounds now 60000 t1 ltac:(lia) ltac:(lia)) as [H1lo H1hi].
  destruct (progress_bounds now 60000 t2 ltac:(lia) ltac:(lia)) as [H2lo H2hi].
  pose proof (progress_monotone now 60000 t1 t2 ltac:(lia) Ht) as Hmono.
  repeat split.
  - rewrite <- (Qcplus_0_r v) at 1. apply Qcplus_le_mono_l.
    now apply Qcmult_nonneg_nonneg.
  - apply Qcplus_le_mono_l. now apply Qcmult_le_mono_nonneg_r.
  - replace (Qc_of_Z 100) with (v + 1 * (Qc_of_Z 100 - v))%Qc at 2 by ring.
    apply Qcplus_le_mono_l. now apply Qcmult_le_mono_nonneg_r.
Qed.

Lemma startReloadAnimation_monotone_witness :
  (current (idle (Qc_of_Z 40)) 0
   <= current (startReloadAnimation (idle (Qc_of_Z 40)) 0) 1000)%Qc
  /\ (current (startReloadAnimation (idle (Qc_of_Z 40)) 0) 1000
      <= current (startReloadAnimation (idle (Qc_of_Z 40)) 0) 2000)%Qc
  /\ (current (startReloadAnimation (idle (Qc_of_Z 40)) 0) 2000
      <= Qc_of_Z 100)%Qc.
Proof.
  apply (startReloadAnimation_monotone (idle (Qc_of_Z 40)) 0 1000 2000).
  - vm_compute. discriminate.
  - lia.
Defined.

(** A cycle: stopped and then started, the indicator goes from 0 to 100
    in 60000 ms at a steady pace, one unit every 600 ms, and then stays
    at 100. *)
Theorem reload_cycle_from_zero (easeInOut : Qc -> Qc) (anim : AnimatedValue)
    (stopped now t : Z) :
  (now <= t)%Z ->
  current (startReloadAnimation (stopReloadAnimation easeInOut anim stopped) now) t
  = if (t <=? now + 60000)%Z then (Qc_of_Z (t - now) / Qc_of_Z 600)%Qc
    else Qc_of_Z 100.
Proof.
  intros Ht. unfold startReloadAnimation.
  rewrite current_ramp by lia.
  change (current (stopReloadAnimation easeInOut anim stopped) now)
    with (Qc_of_Z 0).
  rewrite Z2Qc_inj_0. unfold progress.
  assert (H600 : Qc_of_Z 600 <> 0%Qc) by (apply Qc_of_Z_nonzero; lia).
  assert (H100 : Qc_of_Z 100 <> 0%Qc) by (apply Qc_of_Z_nonzero; lia).
  assert (Hmul : Qc_of_Z 60000 = (Qc_of_Z 600 * Qc_of_Z 100)%Qc)
    by (rewrite <- Z2Qc_inj_mul; reflexivity).
  destruct (Z.leb_spec (now + 60000) t) as [Hend | Hin];
    destruct (Z.leb_spec t (now + 60000)) as [Hle | Hgt]; try lia.
  - replace (t - now)%Z with 60000%Z by lia. rewrite Hmul. now field.
  - ring.
  - rewrite Hmul. now field.
Qed.

Lemma reload_cycle_from_zero_witness :
  current (startReloadAnimation
             (stopReloadAnimation linear (idle (Qc_of_Z 40)) 0) 1000) 31000
  = if (31000 <=? 1000 + 60000)%Z then (Qc_of_Z (31000 - 1000) / Qc_of_Z 600)%Qc
    else Qc_of_Z 100.
Proof.
  apply (reload_cycle_from_zero linear (idle (Qc_of_Z 40)) 0 1000 31000). lia.
Defined.

End ReloadCycle.

(** ** The life of the poll timer *)

Module PollLifecycle.
Import ShuttleStop.

Lemma tick_without_intervals (st : state) :
  intervals st = [] ->
  tick st = {| stopID := stopID st; clock := clock st + 1; intervals := [];
               analytics := analytics st;
               dispatched := dispatched st;
               inFlight := inFlight st; outstanding := outstanding st |}.
Proof. intros H. unfold tick, due_handlers. now rewrite H. Qed.

Lemma elapse_without_intervals (t : N) (st : state) :
  intervals st = [] ->
  elapse t st = {| stopID := stopID st; clock := clock st + t; intervals := [];
                   analytics := analytics st;
                   dispatched := dispatched st;
                   inFlight := inFlight st; outstanding := outstanding st |}.
Proof.
  intros H. unfold elapse. induction t as [| t IH] using N.peano_ind.
  - simpl. destruct st; simpl in *. subst. now rewrite N.add_0_r.
  - rewrite N.iter_succ, IH. rewrite tick_without_intervals by reflexivity.
    simpl. f_equal. lia.
Qed.

(** Once the view is unmounted, whatever state it was in and whatever
    intervals it held, no poll is made any more, however long one waits,
    and no interval is left. *)
Theorem unmount_stops_polling (st : state) (t : N) :
  dispatched (elapse t (componentWillUnmount st)) = dispatched st
  /\ intervals (elapse t (componentWillUnmount st)) = [].
Proof.
  rewrite elapse_without_intervals by reflexivity. repeat split.
Qed.

(** A view mounted for [t1] milliseconds and then unmounted has made the
    polls of its full periods and makes no other. *)
Theorem polls_of_a_mounted_view (id : string) (start t1 t2 : N) :
  dispatched (elapse t2 (componentWillUnmount
                           (elapse t1 (componentDidMount (initial id start)))))
  = polls id start (N.to_nat (t1 / 6000)).
Proof.
  rewrite elapse_without_intervals by reflexivity.
  cbn [dispatched componentWillUnmount].
  now rewrite StopPollScheduler.elapse_after_mount.
Qed.

Lemma run_schedule (fn : callback) (st1 st2 : state) :
  schedule st1 = schedule st2 -> schedule (run fn st1) = schedule (run fn st2).
Proof.
  unfold schedule. intros [= H1 H2 H3 H4]. destruct fn.
  unfold run, tryUpdateStop, props_updateArrivals, updateArrivals. simpl.
  destruct (inFlight st1), (inFlight st2); simpl; congruence.
Qed.

Lemma fold_run_schedule (fns : list callback) (st1 st2 : state) :
  schedule st1 = schedule st2 ->
  schedule (fold_left (fun s fn => run fn s) fns st1)
  = schedule (fold_left (fun s fn => run fn s) fns st2).
Proof.
  revert st1 st2. induction fns as [| fn fns IH]; intros st1 st2 H; simpl.
  - exact H.
  - apply IH. now apply run_schedule.
Qed.

Lemma tick_schedule (st1 st2 : state) :
  schedule st1 = schedule st2 -> schedule (tick st1) = schedule (tick st2).
Proof.
  intros H. pose proof H as [= H1 H2 H3 H4]. unfold tick.
  rewrite H2, H3. apply fold_run_schedule. unfold schedule. simpl. congruence.
Qed.

Lemma elapse_schedule (t : N) (st1 st2 : state) :
  schedule st1 = schedule st2 ->
  schedule (elapse t st1) = schedule (elapse t st2).
Proof.
  intros H. unfold elapse. induction t as [| t IH] using N.peano_ind.
  - exact H.
  - rewrite !N.iter_succ. now apply tick_schedule.
Qed.

(** The arrival of a response, or its failure, has no effect on the
    timer: the polls made from then on are the same, at the same times,
    as if nothing had arrived. *)
Theorem settle_keeps_schedule (st : state) (t : N) :
  dispatched (elapse t (settle st)) = dispatched (elapse t st)
  /\ intervals (elapse t (settle st)) = intervals (elapse t st)
  /\ clock (elapse t (settle st)) = clock (elapse t st).
Proof.
  assert (H : schedule (elapse t (settle st)) = schedule (elapse t st))
    by (apply elapse_schedule; reflexivity).
  unfold schedule in H. injection H as _ Hc Hi Hd. auto.
Qed.

End PollLifecycle.
(** ** The ShuttleStop view: [render] *)

Module StopView.
Import JS ShuttleStopView.

Lemma get_nullish (v : value) (name : string) :
  nullish v = true -> get v name = Throw TypeError.
Proof. destruct v; simpl; congruence. Qed.

Lemma get_read (v : value) (name : string) :
  nullish v = false -> get v name = Return (read v name).
Proof. unfold read. destruct v; simpl; congruence. Qed.

Lemma get_returns (v x : value) (name : string) :
  get v name = Return x -> nullish v = false /\ x = read v name.
Proof.
  intros H. unfold read. rewrite H. split; [| reflexivity].
  destruct v; simpl in *; congruence.
Qed.

Section View.
Variable css : string -> value.
Variable ShuttleImageDict : gmap string value.
Variable deviceWidth : number.

(** [render] throws exactly when the store holds no stop under the
    [stopID] of the view, or the stop has no latitude, or the position has
    no coordinates; in every other case it returns an element. *)
Theorem render_throws_iff (this_props : props) :
  let stop := field (stops this_props) (stopID this_props) in
  (render css ShuttleImageDict deviceWidth this_props = Throw TypeError
   <-> nullish stop
       || nullish (location this_props)
       || nullish (read (location this_props) "coords")
       || nullish (read stop "lat") = true)
  /\ (render css ShuttleImageDict deviceWidth this_props <> Throw TypeError ->
      exists tree,
        render css ShuttleImageDict deviceWidth this_props = Return tree).
Proof.
  intros stop. unfold render, mbind, completion_bind. cbv zeta. fold stop.
  destruct (nullish stop) eqn:N2.
  { rewrite (get_nullish _ _ N2). simpl. split; [tauto | congruence]. }
  rewrite !(get_read stop _ N2). cbv beta iota.
  destruct (nullish (location this_props)) eqn:N3.
  { rewrite (get_nullish _ _ N3). simpl. split; [tauto | congruence]. }
  rewrite (get_read _ _ N3). cbv beta iota.
  destruct (nullish (read (location this_props) "coords")) eqn:N4.
  { rewrite (get_nullish _ _ N4). simpl. split; [tauto | congruence]. }
  rewrite !(get_read _ _ N4). cbv beta iota.
  destruct (nullish (read stop "lat")) eqn:N5.
  { rewrite (get_nullish _ _ N5). simpl. split; [tauto | congruence]. }
  rewrite !(get_read _ _ N5). cbv beta iota.
  split; [split; discriminate | eauto].
Qed.

(** Taking a returned element apart: every read succeeded, and the
    element is the one built from the values read. *)
Ltac returned H :=
  unfold render, mbind, completion_bind in H; cbv zeta in H;
  repeat match type of H with
         | context [get ?v ?name] =>
             let N := fresh "N" in
             destruct (nullish v) eqn:N;
             [rewrite (get_nullish v name N) in H; discriminate H
             | rewrite !(get_read v _ N) in H; cbv beta iota in H]
         end;
  injection H as <-.

(** When [render] returns, the list of arrivals is shown exactly when
    the arrivals of the stop are truthy, and the line that there are no
    active shuttles exactly when they are not: arrivals fetched and found
    empty, an empty array, give the list and not the line. *)
Theorem render_arrivals (this_props : props) (tree : element) :
  render css ShuttleImageDict deviceWidth this_props = Return tree ->
  let arrivals := read (field (stops this_props) (stopID this_props)) "arrivals" in
  (In "There are no active shuttles at this time" (texts tree)
   <-> truthy arrivals = false)
  /\ map (prop "arrivalData") (components "ShuttleSmallList" tree)
     = if truthy arrivals then [arrivals] else [].
Proof.
  intros H arrivals. returned H. fold arrivals.
  destruct (truthy (field ShuttleImageDict (stopID this_props)));
    destruct (truthy arrivals); simpl; split; try reflexivity;
    split; intros; try discriminate; try contradiction; auto.
Qed.

(** When [render] returns, the map holds one marker, and its title, its
    description and its key are what the latitude of the stop has under
    [name]: undefined for a latitude that is a number, whatever the name
    of the stop. *)
Theorem render_marker (this_props : props) (tree : element) (n : number) :
  render css ShuttleImageDict deviceWidth this_props = Return tree ->
  read (field (stops this_props) (stopID this_props)) "lat" = VNumber n ->
  map (fun marker =>
         (prop "title" marker, prop "description" marker, prop "key" marker))
      (components "MapView.Marker" tree)
  = [(VUndefined, VUndefined, VUndefined)].
Proof.
  intros H Hlat. returned H. rewrite Hlat.
  destruct (truthy (field ShuttleImageDict (stopID this_props)));
    destruct (truthy
                (read (field (stops this_props) (stopID this_props)) "arrivals"));
    reflexivity.
Qed.

End View.

Lemma render_throws_stray_stop :
  render VString ∅ (int 400) stray_props = Throw TypeError.
Proof. vm_compute. reflexivity. Qed.

Lemma render_arrivals_witness :
  (In "There are no active shuttles at this time" (texts quiet_tree)
   <-> truthy (read (field (stops quiet_props) (stopID quiet_props)) "arrivals")
       = false)
  /\ map (prop "arrivalData") (components "ShuttleSmallList" quiet_tree)
     = if truthy (read (field (stops quiet_props) (stopID quiet_props)) "arrivals")
       then [read (field (stops quiet_props) (stopID quiet_props)) "arrivals"]
       else [].
Proof.
  apply (render_arrivals VString ∅ (int 400) quiet_props quiet_tree).
  vm_compute. reflexivity.
Defined.

Lemma render_marker_witness :
  map (fun marker =>
         (prop "title" marker, prop "description" marker, prop "key" marker))
      (components "MapView.Marker" quiet_tree)
  = [(VUndefined, VUndefined, VUndefined)].
Proof.
  apply (render_marker VString ∅ (int 400) quiet_props quiet_tree (int 32));
    vm_compute; reflexivity.
Defined.

End StopView.
